(** * The Royal Game of Ur: rules engine and turn resolution of [ur_gui.py]

    A shallow embedding of class [RoyalGameOfUr] (dice, move generation, move
    application, win test) and of the click/tick state machine of [main], with
    the properties of the rules engine proved over it.

    Conventions of the embedding:
    - a player is the list index [0] (White) or [1] (Black) of the source; the
      two-constructor type [player] stands for these two indices and
      [opponent] for [1 - player];
    - a piece position is a [Z]; a piece index (always produced by
      [enumerate] or [list.index] in the source) is a [nat];
    - Python sets are [gset Z], the dict [opp_index_by_pos] is a [gmap Z nat],
      the per-player position lists are [list Z] read with [!!] and written
      with [<[_:=_]>] behind the bounds check Python performs;
    - an exception raised by a list operation is an explicit [Raise] result. *)

From stdpp Require Import gmap list.

Local Open Scope Z_scope.

(** ** Game logic *)

Module RoyalGameOfUr.

Definition N_PIECES : nat := 7.
Definition TRACK_LEN : Z := 14.

Definition ROSETTES : gset Z := {[ 3; 7; 13 ]}.
Definition SHARED : gset Z := list_to_set (seqZ 4 8).
Definition CAPTURE_SQUARES : gset Z := SHARED ∖ ROSETTES.

Inductive player := White | Black.

#[global] Instance player_eq_dec : EqDecision player.
Proof. solve_decision. Defined.

(** [1 - player] *)
Definition opponent (p : player) : player :=
  match p with White => Black | Black => White end.

(** [positions[player][piece]]: -1 off-board, 0..13 on track, 14 borne off. *)
Record positions := Positions { white : list Z; black : list Z }.

Definition pieces (ps : positions) (p : player) : list Z :=
  match p with White => white ps | Black => black ps end.

Definition set_pieces (ps : positions) (p : player) (l : list Z) : positions :=
  match p with
  | White => Positions l (black ps)
  | Black => Positions (white ps) l
  end.

(** The state after [__init__]. *)
Definition init_positions : positions :=
  Positions (replicate N_PIECES (-1)) (replicate N_PIECES (-1)).

(** *** Dice *)

(** The generator [self.rng]: a source of draws and a cursor into it. *)
Record rng := Rng { draws : nat → nat; cursor : nat }.

(** [rng.choice(l)] for a non-empty [l]. *)
Definition choice (g : rng) (l : list Z) : Z * rng :=
  (default 0 (l !! (draws g (cursor g) mod length l)%nat),
   Rng (draws g) (S (cursor g))).

(** [sum(self.rng.choice([0, 1]) for _ in range(4))] *)
Fixpoint sum_choices (n : nat) (g : rng) (acc : Z) : Z * rng :=
  match n with
  | O => (acc, g)
  | S n' => let '(c, g') := choice g [0; 1] in sum_choices n' g' (acc + c)
  end.

Definition roll_dice (g : rng) : Z * rng := sum_choices 4 g 0.

(** *** Moves *)

(** [(piece_index or None, newpos, extra_turn, captured_piece_index)] *)
Record move := Move {
  piece_idx : option nat;
  newpos : Z;
  extra : bool;
  captured_idx : option nat
}.

#[global] Instance move_eq_dec : EqDecision move.
Proof. solve_decision. Defined.

(** [0 <= pos < self.TRACK_LEN] *)
Definition on_track (pos : Z) : Prop := 0 ≤ pos < TRACK_LEN.

#[global] Instance on_track_dec pos : Decision (on_track pos).
Proof. unfold on_track. apply _. Defined.

(** [{pos for pos in l if 0 <= pos < self.TRACK_LEN}] *)
Definition track_set (l : list Z) : gset Z := list_to_set (filter on_track l).

(** The loop filling [opp_index_by_pos]: the first index found at each
    on-track position. *)
Fixpoint index_by_pos_loop (idx : nat) (l : list Z) (d : gmap Z nat) : gmap Z nat :=
  match l with
  | [] => d
  | pos :: rest =>
      index_by_pos_loop (S idx) rest
        (if decide (on_track pos ∧ d !! pos = None) then <[pos := idx]> d else d)
  end.

Definition index_by_pos (l : list Z) : gmap Z nat := index_by_pos_loop 0 l ∅.

(** The local helper [landing_info] of [legal_moves], closed over the two
    position lists. [opp_index_by_pos[newpos]] is read under the guard
    [newpos in opp_set], where the key is always present
    (see [index_by_pos_is_Some]). *)
Definition landing_info (own_positions opp_positions : list Z) (newpos : Z)
  : bool * option nat :=
  let own_set := track_set own_positions in
  let opp_set := track_set opp_positions in
  let opp_index_by_pos := index_by_pos opp_positions in
  if decide (newpos ∈ own_set) then (false, None)
  else if decide (newpos ∈ SHARED ∧ newpos ∈ opp_set) then
    if decide (newpos ∈ CAPTURE_SQUARES) then (true, opp_index_by_pos !! newpos)
    else (false, None)
  else (true, None).

(** One iteration of the loop "Move existing pieces". *)
Definition piece_moves (own_positions opp_positions : list Z) (roll : Z)
    (i : nat) (pos : Z) : list move :=
  if decide (pos < 0 ∨ pos >= TRACK_LEN) then []
  else
    let newpos := pos + roll in
    if decide (newpos > TRACK_LEN) then []
    else if decide (newpos = TRACK_LEN) then [Move (Some i) newpos false None]
    else
      let '(allowed, captured_idx) := landing_info own_positions opp_positions newpos in
      if negb allowed then []
      else [Move (Some i) newpos (bool_decide (newpos ∈ ROSETTES)) captured_idx].

(** The block "Enter a new piece from off-board". *)
Definition entry_moves (own_positions opp_positions : list Z) (roll : Z) : list move :=
  if decide (-1 ∈ own_positions) then
    let entry_pos := roll - 1 in
    if decide (0 ≤ entry_pos < TRACK_LEN) then
      let '(allowed, captured_idx) := landing_info own_positions opp_positions entry_pos in
      if allowed then
        [Move None entry_pos (bool_decide (entry_pos ∈ ROSETTES)) captured_idx]
      else []
    else []
  else [].

Definition legal_moves (ps : positions) (player : player) (roll : Z) : list move :=
  if decide (roll = 0) then []
  else
    let own_positions := pieces ps player in
    let opp_positions := pieces ps (opponent player) in
    mjoin (imap (piece_moves own_positions opp_positions roll) own_positions)
      ++ entry_moves own_positions opp_positions roll.

(** *** Applying a move *)

Inductive exn := IndexError | ValueError.

Inductive result (A : Type) := Return (a : A) | Raise (e : exn).
Arguments Return {A} a.
Arguments Raise {A} e.

(** [l[i] = v] *)
Definition list_store (l : list Z) (i : nat) (v : Z) : result (list Z) :=
  if decide (i < length l)%nat then Return (<[i := v]> l) else Raise IndexError.

(** [l.index(v)] *)
Definition list_index (l : list Z) (v : Z) : result nat :=
  match list_find (λ x, x = v) l with
  | Some (i, _) => Return i
  | None => Raise ValueError
  end.

(** [apply_move] mutates [self.positions] in place: the positions it leaves
    behind are returned together with its result, also when it raises after
    the capture has been written. *)
Definition apply_move (ps : positions) (player : player) (m : move)
  : positions * result bool :=
  let opp := opponent player in
  let after_capture :=
    match captured_idx m with
    | Some c =>
        match list_store (pieces ps opp) c (-1) with
        | Return l => Return (set_pieces ps opp l)
        | Raise e => Raise e
        end
    | None => Return ps
    end in
  match after_capture with
  | Raise e => (ps, Raise e)
  | Return ps1 =>
      match piece_idx m with
      | None =>
          match list_index (pieces ps1 player) (-1) with
          | Raise e => (ps1, Raise e)
          | Return new_piece =>
              match list_store (pieces ps1 player) new_piece (newpos m) with
              | Return l => (set_pieces ps1 player l, Return (extra m))
              | Raise e => (ps1, Raise e)
              end
          end
      | Some i =>
          match list_store (pieces ps1 player) i (newpos m) with
          | Return l => (set_pieces ps1 player l, Return (extra m))
          | Raise e => (ps1, Raise e)
          end
      end
  end.

(** [all(pos == self.TRACK_LEN for pos in self.positions[player])] *)
Definition is_winner (ps : positions) (player : player) : bool :=
  forallb (λ pos, bool_decide (pos = TRACK_LEN)) (pieces ps player).

End RoyalGameOfUr.

Import RoyalGameOfUr.

(** ** The turn state machine of [main] *)

(** Only the variables of [main] that decide the control flow are kept:
    [message], [post_capture_message], [capture_square] and
    [quiz_last_choice] only feed the drawing code. A mouse click is given by
    what the hit tests of the handler return for it. *)

Module Main.

(** [QUIZ_TRIGGER_ROSETTES = {3, 7}] *)
Definition QUIZ_TRIGGER_ROSETTES : gset Z := {[ 3; 7 ]}.

(** [QUIZ_QUESTIONS], each question reduced to its [correct_index]. *)
Definition QUIZ_QUESTIONS : list nat :=
  [1; 2; 3; 1; 2; 1; 3; 1; 2; 2; 1; 1; 0; 2]%nat.

Definition CAPTURE_ANIM_FRAMES : Z := 90.

Inductive ui_state :=
  | await_roll | await_select | await_dest | await_continue
  | await_quiz | game_over | capture_anim | quiz_feedback.

#[global] Instance ui_state_eq_dec : EqDecision ui_state.
Proof. solve_decision. Defined.

(** The object [game]. *)
Record game := Game {
  game_positions : positions;
  current_player : player;
  game_rng : rng
}.

(** The locals of [main]. *)
Record ui := Ui {
  the_game : game;
  state : ui_state;
  roll_value : option Z;
  ui_legal_moves : list move;
  selected_piece : option nat;
  quiz_question_index : nat;
  quiz_current : option nat;
  quiz_player : option player;
  quiz_correct_option : option nat;
  quiz_feedback_frames : Z;
  capture_anim_frames : Z;
  post_capture_state : option ui_state
}.

(** [RoyalGameOfUr()] seeded with the generator [g]. *)
Definition new_game (g : rng) : game := Game init_positions White g.

(** The state of [main] when its loop starts. *)
Definition init_ui (g : rng) : ui :=
  Ui (new_game g) await_roll None [] None 0 None None None 0 0 None.

(** A left click, as the handler sees it: the buttons hit, the square
    [rect_to_logical_pos_and_owner] finds (its [pos] and [owner]), the rack
    area, the first answer rectangle hit, and the generator a restart would
    seed a new game with. *)
Record click := Click {
  on_roll_btn : bool;
  on_cont_btn : bool;
  on_square : option (Z * option player);
  on_rack : bool;
  on_answer : option nat;
  fresh_rng : rng
}.

Definition set_game (gm : game) (u : ui) : ui :=
  Ui gm (state u) (roll_value u) (ui_legal_moves u) (selected_piece u)
     (quiz_question_index u) (quiz_current u) (quiz_player u)
     (quiz_correct_option u) (quiz_feedback_frames u)
     (capture_anim_frames u) (post_capture_state u).

Definition set_current_player (p : player) (u : ui) : ui :=
  set_game (Game (game_positions (the_game u)) p (game_rng (the_game u))) u.

(** Assigns [state], [roll_value], [legal_moves] and [selected_piece]. *)
Definition set_turn (s : ui_state) (r : option Z) (ms : list move)
    (sel : option nat) (u : ui) : ui :=
  Ui (the_game u) s r ms sel
     (quiz_question_index u) (quiz_current u) (quiz_player u)
     (quiz_correct_option u) (quiz_feedback_frames u)
     (capture_anim_frames u) (post_capture_state u).

Definition set_state (s : ui_state) (u : ui) : ui :=
  set_turn s (roll_value u) (ui_legal_moves u) (selected_piece u) u.

Definition set_quiz (idx : nat) (cur : option nat) (qp : option player)
    (correct : option nat) (frames : Z) (u : ui) : ui :=
  Ui (the_game u) (state u) (roll_value u) (ui_legal_moves u) (selected_piece u)
     idx cur qp correct frames
     (capture_anim_frames u) (post_capture_state u).

Definition set_capture_anim (frames : Z) (post : option ui_state) (u : ui) : ui :=
  Ui (the_game u) (state u) (roll_value u) (ui_legal_moves u) (selected_piece u)
     (quiz_question_index u) (quiz_current u) (quiz_player u)
     (quiz_correct_option u) (quiz_feedback_frames u)
     frames post.

(** [current_player_positions_on_track]: position to piece index, the last
    piece found at a position winning. *)
Fixpoint positions_on_track_loop (i : nat) (l : list Z) (d : gmap Z nat) : gmap Z nat :=
  match l with
  | [] => d
  | ppos :: rest =>
      positions_on_track_loop (S i) rest
        (if decide (on_track ppos) then <[ppos := i]> d else d)
  end.

Definition current_player_positions_on_track (gm : game) (p : player) : gmap Z nat :=
  positions_on_track_loop 0 (pieces (game_positions gm) p) ∅.

(** [any(m[0] == piece_idx for m in legal_moves)] *)
Definition piece_can_move (u : ui) (pi : option nat) : bool :=
  existsb (λ m, bool_decide (piece_idx m = pi)) (ui_legal_moves u).

(** [[m for m in legal_moves if m[0] == piece_idx]] *)
Definition moves_for_piece (u : ui) (pi : option nat) : list move :=
  filter (λ m, piece_idx m = pi) (ui_legal_moves u).

(** [owner is None or owner == p] *)
Definition owner_allows (owner : option player) (p : player) : bool :=
  match owner with None => true | Some o => bool_decide (o = p) end.

(** The move the "await_dest" handler picks for a click: the first move of
    the selected piece whose destination is the clicked square. *)
Definition chosen_move (u : ui) (c : click) : option move :=
  match on_square c with
  | Some (pos_clicked, owner) =>
      if owner_allows owner (current_player (the_game u)) then
        snd <$> list_find (λ m, newpos m = pos_clicked)
                  (moves_for_piece u (selected_piece u))
      else None
  | None => None
  end.

(** The branch "Roll button". *)
Definition click_roll (u : ui) : ui :=
  let gm := the_game u in
  let '(r, g') := roll_dice (game_rng gm) in
  let ms := legal_moves (game_positions gm) (current_player gm) r in
  let u1 := set_game (Game (game_positions gm) (current_player gm) g') u in
  if bool_decide (r = 0) || bool_decide (ms = [])
  then set_turn await_continue (Some r) ms None u1
  else set_turn await_select (Some r) ms None u1.

(** The branch "Continue button". *)
Definition click_continue (u : ui) : ui :=
  set_turn await_roll None [] None
    (set_current_player (opponent (current_player (the_game u))) u).

(** The branch "Selecting a piece". *)
Definition click_select (u : ui) (c : click) : ui :=
  let p := current_player (the_game u) in
  let on_track_idx := current_player_positions_on_track (the_game u) p in
  let u1 :=
    match on_square c with
    | Some (pos_clicked, owner) =>
        if owner_allows owner p then
          match on_track_idx !! pos_clicked with
          | Some pi =>
              if piece_can_move u (Some pi)
              then set_turn await_dest (roll_value u) (ui_legal_moves u) (Some pi) u
              else u
          | None => u
          end
        else u
    | None => u
    end in
  if on_rack c then
    if piece_can_move u1 None
    then set_turn await_dest (roll_value u1) (ui_legal_moves u1) None u1
    else u1
  else u1.

(** What the "await_dest" handler does once [apply_move] has returned
    [extra] for the chosen move and left the positions [ps']. *)
Definition after_move (u : ui) (m : move) (ps' : positions) (extra : bool)
  : result ui :=
  let gm := the_game u in
  let p := current_player gm in
  let u1 := set_turn (state u) (roll_value u) [] None
              (set_game (Game ps' p (game_rng gm)) u) in
  let next : result (ui * ui_state) :=
    if is_winner ps' p then Return (u1, game_over)
    else if extra && bool_decide (newpos m ∈ QUIZ_TRIGGER_ROSETTES) then
      match QUIZ_QUESTIONS !! quiz_question_index u1 with
      | Some q =>
          Return (set_quiz (quiz_question_index u1) (Some q) (Some p) (Some q)
                    (quiz_feedback_frames u1) u1, await_quiz)
      | None => Raise IndexError
      end
    else if extra then Return (u1, await_roll)
    else Return (set_current_player (opponent p) u1, await_roll) in
  match next with
  | Raise e => Raise e
  | Return (u2, next_state) =>
      match captured_idx m with
      | Some _ =>
          Return (set_state capture_anim
                    (set_capture_anim CAPTURE_ANIM_FRAMES (Some next_state) u2))
      | None => Return (set_state next_state u2)
      end
  end.

(** The branch "Selecting a destination". *)
Definition click_dest (u : ui) (c : click) : result ui :=
  let gm := the_game u in
  match chosen_move u c with
  | Some m =>
      match apply_move (game_positions gm) (current_player gm) m with
      | (ps', Return extra) => after_move u m ps' extra
      | (_, Raise e) => Raise e
      end
  | None =>
      Return (set_turn await_select (roll_value u) (ui_legal_moves u) None u)
  end.

(** The branch "Answering a quiz question". *)
Definition click_quiz (u : ui) (c : click) : ui :=
  match quiz_current u, on_answer c with
  | Some _, Some idx =>
      let next_idx :=
        ((quiz_question_index u + 1) `mod` length QUIZ_QUESTIONS)%nat in
      let u1 :=
        match quiz_player u with
        | Some qp =>
            if bool_decide (Some idx = quiz_correct_option u)
            then set_current_player qp u
            else set_current_player (opponent qp) u
        | None => u
        end in
      set_state quiz_feedback
        (set_quiz next_idx (quiz_current u1) (quiz_player u1)
           (quiz_correct_option u1) 30 u1)
  | _, _ => u
  end.

(** The branch "game_over": a click on Roll starts a new game. *)
Definition click_game_over (u : ui) (c : click) : ui :=
  if on_roll_btn c
  then set_turn await_roll None [] None (set_game (new_game (fresh_rng c)) u)
  else u.

(** The handler of a left mouse button press. *)
Definition handle_click (u : ui) (c : click) : result ui :=
  match state u with
  | await_roll => Return (if on_roll_btn c then click_roll u else u)
  | await_continue => Return (if on_cont_btn c then click_continue u else u)
  | await_select => Return (click_select u c)
  | await_dest => click_dest u c
  | await_quiz => Return (click_quiz u c)
  | game_over => Return (click_game_over u c)
  | capture_anim | quiz_feedback => Return u
  end.

(** The two countdowns that end every iteration of the main loop. *)
Definition tick (u : ui) : ui :=
  let u1 :=
    if decide (state u = capture_anim) then
      let frames :=
        if decide (capture_anim_frames u > 0) then capture_anim_frames u - 1
        else capture_anim_frames u in
      if decide (frames ≤ 0) then
        set_state (default await_roll (post_capture_state u))
          (set_capture_anim frames None u)
      else set_capture_anim frames (post_capture_state u) u
    else u in
  if decide (state u1 = quiz_feedback) then
    let frames :=
      if decide (quiz_feedback_frames u1 > 0) then quiz_feedback_frames u1 - 1
      else quiz_feedback_frames u1 in
    if decide (frames ≤ 0) then
      set_state await_roll (set_quiz (quiz_question_index u1) None None None frames u1)
    else
      set_quiz (quiz_question_index u1) (quiz_current u1) (quiz_player u1)
        (quiz_correct_option u1) frames u1
  else u1.

(** What happens in the main loop: a click is handled, or an iteration ends. *)
Inductive event := Clicked (c : click) | Tick.

Definition step (u : ui) (e : event) : result ui :=
  match e with
  | Clicked c => handle_click u c
  | Tick => Return (tick u)
  end.

(** The verdict of the quiz, when the event answers the pending question:
    whether the answer clicked is the correct one. *)
Definition quiz_verdict (u : ui) (e : event) : option bool :=
  match e, state u, quiz_current u with
  | Clicked c, await_quiz, Some _ =>
      (λ idx, bool_decide (Some idx = quiz_correct_option u)) <$> on_answer c
  | _, _, _ => None
  end.

(** Runs the events up to the first moment the state is "await_roll" and
    returns the state of [main] then, with the last quiz verdict given on the
    way ([v] if none). *)
Fixpoint until_await_roll (evs : list event) (u : ui) (v : option bool)
  : option (ui * option bool) :=
  if decide (state u = await_roll) then Some (u, v)
  else
    match evs with
    | [] => None
    | e :: evs' =>
        match step u e with
        | Return u' =>
            until_await_roll evs' u'
              (match quiz_verdict u e with Some b => Some b | None => v end)
        | Raise _ => None
        end
    end.

(** The states of [main] reached from the start of the loop. *)
Inductive ui_reachable : ui → Prop :=
  | ui_reachable_init (g : rng) : ui_reachable (init_ui g)
  | ui_reachable_step (u u' : ui) (e : event) :
      ui_reachable u → step u e = Return u' → ui_reachable u'.

(** A run used as an example: every draw of the generator is 1, so the first
    roll is 4; White clicks Roll, then the rack, and is asked for the entry
    destination. *)
Definition example_click_roll : click :=
  Click true false None false None (Rng (λ _, 0%nat) 0).

Definition example_click_rack : click :=
  Click false false None true None (Rng (λ _, 0%nat) 0).

Definition example_click_slot3 : click :=
  Click false false (Some (3, Some White)) false None (Rng (λ _, 0%nat) 0).

Definition example_click_answer (idx : nat) : click :=
  Click false false None false (Some idx) (Rng (λ _, 0%nat) 0).

Definition example_await_dest : ui :=
  Ui (Game init_positions White (Rng (λ _, 1%nat) 4)) await_dest
     (Some 4) [Move None 3 true None] None 0 None None None 0 0 None.


End Main.

Import Main.

(** ** Board layout and hit test *)

(** Layout constants of the window. *)
Definition SQUARE : Z := 72.
Definition GAP : Z := 8.
Definition MARGIN_X : Z := 210.
Definition MARGIN_Y : Z := 60.

(** [pygame.Rect(x, y, w, h)] *)
Record rect := Rect { rect_x : Z; rect_y : Z; rect_w : Z; rect_h : Z }.

(** [rect.collidepoint(mx, my)]: the point is inside the rectangle, its left
    and top edges included, its right and bottom edges excluded. *)
Definition collidepoint (r : rect) (mx my : Z) : Prop :=
  rect_x r ≤ mx < rect_x r + rect_w r ∧ rect_y r ≤ my < rect_y r + rect_h r.

#[global] Instance collidepoint_dec r mx my : Decision (collidepoint r mx my).
Proof. unfold collidepoint. apply _. Defined.

(** [SquareDef]: [owner] is the player of a private square, [None] for a
    shared one. *)
Record SquareDef := MkSquareDef {
  sq_rect : rect;
  sq_pos : Z;
  sq_owner : option player
}.

(** The helper [rect_at] of [make_board_squares]. *)
Definition rect_at (row col : Z) : rect :=
  Rect (MARGIN_X + col * (SQUARE + GAP)) (MARGIN_Y + row * (SQUARE + GAP))
       SQUARE SQUARE.

Definition make_board_squares : list SquareDef :=
  ((λ col, MkSquareDef (rect_at 1 col) (4 + col) None) <$> seqZ 0 8)
  ++ ((λ col, MkSquareDef (rect_at 0 col) col (Some White)) <$> seqZ 0 4)
  ++ [MkSquareDef (rect_at 0 6) 12 (Some White);
      MkSquareDef (rect_at 0 7) 13 (Some White)]
  ++ ((λ col, MkSquareDef (rect_at 2 col) col (Some Black)) <$> seqZ 0 4)
  ++ [MkSquareDef (rect_at 2 6) 12 (Some Black);
      MkSquareDef (rect_at 2 7) 13 (Some Black)]
  ++ [MkSquareDef (rect_at 0 8) 14 (Some White);
      MkSquareDef (rect_at 2 8) 14 (Some Black)].

(** [squares_for_pos] of [main], with [squares = make_board_squares()]. *)
Definition squares_for_pos (pos : Z) : list SquareDef :=
  filter (λ s, sq_pos s = pos) make_board_squares.

(** [rect_to_logical_pos_and_owner] of [main]: the first square under the
    mouse, or [(None, None)]. *)
Definition rect_to_logical_pos_and_owner (mx my : Z) : option Z * option player :=
  match list_find (λ s, collidepoint (sq_rect s) mx my) make_board_squares with
  | Some (_, s) => (Some (sq_pos s), sq_owner s)
  | None => (None, None)
  end.

(** ** Vocabulary of the statements *)

(** A candidate of [legal_moves]: an on-track piece [Some i] that the roll
    takes to [d], or the entry [None] of an off-board piece at [d]. *)
Definition candidate (ps : positions) (p : player) (roll : Z)
    (k : option nat) (d : Z) : Prop :=
  roll ≠ 0 ∧
  match k with
  | Some i => ∃ pos, pieces ps p !! i = Some pos ∧ on_track pos ∧ d = pos + roll
  | None => -1 ∈ pieces ps p ∧ d = roll - 1
  end.

(** The positions after the capture step [positions[opponent][c] = -1]. *)
Definition capture (ps : positions) (p : player) (c : option nat) : positions :=
  match c with
  | Some k => set_pieces ps (opponent p) (<[k := -1]> (pieces ps (opponent p)))
  | None => ps
  end.

(** Boards reached from the initial one by applying moves that [legal_moves]
    returns, for either player and any non-negative roll ([roll_dice] yields
    0..4). *)
Inductive reachable : positions → Prop :=
  | reachable_init : reachable init_positions
  | reachable_move (ps : positions) (p : player) (roll : Z) (m : move) :
      reachable ps → 0 ≤ roll → m ∈ legal_moves ps p roll →
      reachable (apply_move ps p m).1.

(** Every position of the list is in [-1, 14]. *)
Definition in_range (l : list Z) : Prop := Forall (λ x, -1 ≤ x ≤ 14) l.

(** No two pieces of the list are on the same on-track slot. *)
Definition no_stack (l : list Z) : Prop :=
  ∀ i j x, l !! i = Some x → l !! j = Some x → on_track x → i = j.

(** No shared slot is held by a piece of each list. *)
Definition exclusive (l1 l2 : list Z) : Prop :=
  ∀ x, x ∈ SHARED → x ∈ l1 → x ∈ l2 → False.

(** The board invariant: seven pieces a side, positions in range, no stacking
    on the track, mutual exclusion on the shared lane. *)
Record board_ok (ps : positions) : Prop := BoardOk {
  ok_length : ∀ p, length (pieces ps p) = N_PIECES;
  ok_range : ∀ p, in_range (pieces ps p);
  ok_no_stack : ∀ p, no_stack (pieces ps p);
  ok_exclusive : ∀ p, exclusive (pieces ps p) (pieces ps (opponent p))
}.

(** States from which the next "await_roll" keeps the player now recorded. *)
Definition settled (u : ui) : Prop :=
  state u = await_roll ∨ state u = quiz_feedback ∨
  (state u = capture_anim ∧
   (post_capture_state u = Some await_roll ∨ post_capture_state u = None)).

(** States in which a quiz for player [p] is pending, possibly behind the
    capture animation. *)
Definition quiz_pending (p : player) (u : ui) : Prop :=
  quiz_player u = Some p ∧ is_Some (quiz_current u) ∧
  (state u = await_quiz ∨
   (state u = capture_anim ∧ post_capture_state u = Some await_quiz)).

(** While a piece or a destination is being selected, the stored move list is
    the one [legal_moves] returned for the current board and player; the quiz
    index always names a question; a capture animation never resumes into the
    selection states. *)
Definition ui_ok (u : ui) : Prop :=
  (quiz_question_index u < length QUIZ_QUESTIONS)%nat ∧
  post_capture_state u ≠ Some await_select ∧
  post_capture_state u ≠ Some await_dest ∧
  (state u = await_select ∨ state u = await_dest →
   ∃ r, ui_legal_moves u =
        legal_moves (game_positions (the_game u)) (current_player (the_game u)) r).

(** The sum of a player's positions: how far the player's pieces have gone. *)
Definition total (l : list Z) : Z := foldr Z.add 0 l.

(** The state the loop is in, or will resume into once the capture animation
    has run out. *)
Definition resume_state (u : ui) : ui_state :=
  if decide (state u = capture_anim)
  then default await_roll (post_capture_state u)
  else state u.

(** What holds of the variables of [main] in each state of the loop. *)
Record ui_inv (u : ui) : Prop := UiInv {
  inv_board : reachable (game_positions (the_game u));
  inv_moves :
    state u = await_select ∨ state u = await_dest →
    ∃ r, 1 ≤ r ≤ 4 ∧ roll_value u = Some r ∧
         ui_legal_moves u =
           legal_moves (game_positions (the_game u)) (current_player (the_game u)) r ∧
         ui_legal_moves u ≠ [];
  inv_selected :
    state u = await_dest →
    ∃ m, m ∈ ui_legal_moves u ∧ piece_idx m = selected_piece u;
  inv_continue :
    state u = await_continue →
    ∃ r, 0 ≤ r ≤ 4 ∧ roll_value u = Some r ∧
         legal_moves (game_positions (the_game u)) (current_player (the_game u)) r = [];
  inv_over :
    resume_state u = game_over →
    is_winner (game_positions (the_game u)) (current_player (the_game u)) = true;
  inv_quiz :
    resume_state u = await_quiz →
    quiz_player u = Some (current_player (the_game u)) ∧
    is_Some (quiz_current u) ∧
    quiz_current u = QUIZ_QUESTIONS !! quiz_question_index u ∧
    quiz_correct_option u = quiz_current u;
  inv_resume :
    resume_state u = await_roll ∨ resume_state u = await_quiz ∨
    resume_state u = game_over ∨ state u ≠ capture_anim
}.

(** Runs a sequence of events of the main loop. *)
Fixpoint run (evs : list event) (u : ui) : result ui :=
  match evs with
  | [] => Return u
  | e :: evs' =>
      match step u e with
      | Return u' => run evs' u'
      | Raise x => Raise x
      end
  end.

(** [n] ends of frame in a row. *)
Fixpoint ticks (n : nat) (u : ui) : ui :=
  match n with
  | O => u
  | S n' => ticks n' (tick u)
  end.

(** A whole game used as an example. The draws repeat every 24 so that the
    rolls are 4, 4, 4, 0, 3, 0: White enters a piece on 3, answers the quiz
    correctly, moves it to 7, answers correctly again, moves it to 11; Black
    rolls 0 and continues; White bears the piece off; Black rolls 0 and
    continues. After the seventh piece White has won. *)
Definition example_draw (n : nat) : nat :=
  let r := (n `mod` 24)%nat in
  if (r <? 12)%nat then 1%nat
  else if (r <? 16)%nat then 0%nat
  else if (r <? 19)%nat then 1%nat
  else 0%nat.

Definition example_click_square (pos : Z) (owner : option player) : click :=
  Click false false (Some (pos, owner)) false None (Rng (λ _, 0%nat) 0).

Definition example_click_continue : click :=
  Click false true None false None (Rng (λ _, 0%nat) 0).

Definition example_answer (qi : nat) : event :=
  Clicked (example_click_answer (default 0%nat (QUIZ_QUESTIONS !! (qi `mod` 14)%nat))).

Definition example_piece_home (k : nat) : list event :=
  [Clicked example_click_roll; Clicked example_click_rack;
   Clicked (example_click_square 3 (Some White)); example_answer (2 * k)]
  ++ replicate 30 Tick ++
  [Clicked example_click_roll; Clicked (example_click_square 3 (Some White));
   Clicked (example_click_square 7 None); example_answer (2 * k + 1)]
  ++ replicate 30 Tick ++
  [Clicked example_click_roll; Clicked (example_click_square 7 None);
   Clicked (example_click_square 11 None);
   Clicked example_click_roll; Clicked example_click_continue;
   Clicked example_click_roll; Clicked (example_click_square 11 None);
   Clicked (example_click_square 14 (Some White))].

Definition example_black_passes : list event :=
  [Clicked example_click_roll; Clicked example_click_continue].

Definition example_game : list event :=
  mjoin ((λ k, example_piece_home k ++ example_black_passes) <$> seq 0 6)
  ++ example_piece_home 6.

Definition example_game_over : ui :=
  match run example_game (init_ui (Rng example_draw 0)) with
  | Return u => u
  | Raise _ => init_ui (Rng example_draw 0)
  end.

Definition example_await_quiz : ui :=
  Ui (Game (Positions [3; -1; -1; -1; -1; -1; -1] (replicate 7 (-1))) White
        (Rng (λ _, 1%nat) 4))
     await_quiz (Some 4) [] None 0 (Some 1%nat) (Some White) (Some 1%nat) 0 0 None.

(** A state awaiting the destination of a capturing move: White's piece on 1
    rolled 4 and Black stands on shared slot 5. *)
Definition example_capture_dest : ui :=
  Ui (Game (Positions [1; -1; -1; -1; -1; -1; -1] [14; 5; -1; -1; -1; -1; -1])
        White (Rng (λ _, 1%nat) 4))
     await_dest (Some 4) [Move (Some 0%nat) 5 false (Some 1%nat)] (Some 0%nat)
     0 None None None 0 0 None.

Example legal_moves_fresh_roll4 :
  legal_moves init_positions White 4 = [Move None 3 true None].
Proof. vm_compute. reflexivity. Qed.

(** ** Board topology *)

Section topology.

Lemma elem_of_ROSETTES (x : Z) : x ∈ ROSETTES ↔ x = 3 ∨ x = 7 ∨ x = 13.
Proof. unfold ROSETTES. rewrite !elem_of_union, !elem_of_singleton. tauto. Qed.

Lemma elem_of_SHARED (x : Z) : x ∈ SHARED ↔ 4 ≤ x ≤ 11.
Proof.
  unfold SHARED. rewrite elem_of_list_to_set, elem_of_seqZ. lia.
Qed.

Lemma elem_of_CAPTURE_SQUARES (x : Z) :
  x ∈ CAPTURE_SQUARES ↔ 4 ≤ x ≤ 11 ∧ x ≠ 7.
Proof.
  unfold CAPTURE_SQUARES.
  rewrite elem_of_difference, elem_of_SHARED, elem_of_ROSETTES. lia.
Qed.

Lemma elem_of_track_set (l : list Z) (x : Z) :
  x ∈ track_set l ↔ x ∈ l ∧ on_track x.
Proof.
  unfold track_set. rewrite elem_of_list_to_set, list_elem_of_filter. tauto.
Qed.

End topology.

(** ** The index dictionary *)

Section index_by_pos.

Lemma index_by_pos_loop_lookup (l : list Z) : ∀ (idx : nat) (d : gmap Z nat) (x : Z),
  index_by_pos_loop idx l d !! x =
    match d !! x with
    | Some i => Some i
    | None =>
        if decide (on_track x)
        then (λ r : nat * Z, (idx + r.1)%nat) <$> list_find (λ y, y = x) l
        else None
    end.
Proof.
  induction l as [|pos rest IH]; intros idx d x; simpl.
  - destruct (d !! x); [done|]. by case_decide.
  - rewrite IH. clear IH.
    destruct (decide (on_track pos ∧ d !! pos = None)) as [[Hon Hnone]|Hno].
    + destruct (decide (pos = x)) as [->|Hne].
      * rewrite lookup_insert_eq, Hnone.
        rewrite decide_True by done. simpl. f_equal. lia.
      * rewrite lookup_insert_ne by done.
        destruct (d !! x); [done|].
        case_decide; [|done].
        destruct (list_find _ rest) as [[i y]|]; simpl; [f_equal; lia|done].
    + destruct (d !! x) eqn:Hdx; [done|].
      case_decide as Hx; [|done].
      destruct (decide (pos = x)) as [->|Hne]; [tauto|].
      destruct (list_find _ rest) as [[i y]|]; simpl; [f_equal; lia|done].
Qed.

Lemma index_by_pos_lookup (l : list Z) (x : Z) :
  index_by_pos l !! x =
    if decide (on_track x) then fst <$> list_find (λ y, y = x) l else None.
Proof.
  unfold index_by_pos. rewrite index_by_pos_loop_lookup, lookup_empty.
  case_decide; [|done]. by destruct (list_find _ l) as [[i y]|].
Qed.

(** The dictionary maps an on-track position to the first piece on it. *)
Lemma index_by_pos_Some (l : list Z) (x : Z) (i : nat) :
  index_by_pos l !! x = Some i ↔
  on_track x ∧ l !! i = Some x ∧ ∀ j, (j < i)%nat → l !! j ≠ Some x.
Proof.
  rewrite index_by_pos_lookup. case_decide as Hx.
  - split.
    + intros Hf. destruct (list_find _ l) as [[k y]|] eqn:Hfind; [|done].
      simpl in Hf. injection Hf as ->.
      apply list_find_Some in Hfind as (Hk & -> & Hmin).
      split_and!; [done..|]. intros j Hj Hl. by apply (Hmin j x).
    + intros (_ & Hi & Hmin).
      assert (list_find (λ y, y = x) l = Some (i, x)) as ->; [|done].
      apply list_find_Some. split_and!; [done..|].
      intros j y Hl Hj ->. by apply (Hmin j).
  - split; [done|]. tauto.
Qed.

(** The read [opp_index_by_pos[newpos]] in [landing_info] never fails. *)
Lemma index_by_pos_is_Some (l : list Z) (x : Z) :
  x ∈ track_set l → is_Some (index_by_pos l !! x).
Proof.
  rewrite elem_of_track_set. intros [Hin Hon].
  rewrite index_by_pos_lookup, decide_True by done.
  destruct (list_find (λ y, y = x) l) as [[i y]|] eqn:Hfind; [by eexists|].
  exfalso. eapply list_find_None in Hfind.
  by eapply (proj1 (Forall_forall _ _) Hfind x).
Qed.

End index_by_pos.

(** ** Move generation: what the returned list contains *)

Section legal_moves_membership.

Lemma elem_of_piece_moves (own opp : list Z) (roll : Z) (i : nat) (pos : Z) (m : move) :
  m ∈ piece_moves own opp roll i pos ↔
  on_track pos ∧
  ((pos + roll = TRACK_LEN ∧ m = Move (Some i) TRACK_LEN false None) ∨
   (pos + roll < TRACK_LEN ∧ ∃ c,
      landing_info own opp (pos + roll) = (true, c) ∧
      m = Move (Some i) (pos + roll) (bool_decide (pos + roll ∈ ROSETTES)) c)).
Proof.
  unfold piece_moves, on_track, TRACK_LEN.
  destruct (decide (pos < 0 ∨ pos >= 14)) as [Hout|Hin].
  { rewrite elem_of_nil. split; [done|]. lia. }
  destruct (decide (pos + roll > 14)) as [Hover|Hle].
  { rewrite elem_of_nil. split; [done|]. lia. }
  destruct (decide (pos + roll = 14)) as [Hoff|Hlt].
  { rewrite list_elem_of_singleton, Hoff. split.
    - intros ->. split; [lia|]. by left.
    - intros [_ [[_ ->]|[? _]]]; [done|lia]. }
  destruct (landing_info own opp (pos + roll)) as [[] c] eqn:Hland; simpl.
  - rewrite list_elem_of_singleton. split.
    + intros ->. split; [lia|]. right. split; [lia|]. by exists c.
    + intros [_ [[? _]|[_ (c' & Hc & ->)]]]; [lia|]. congruence.
  - rewrite elem_of_nil. split; [done|].
    intros [_ [[? _]|[_ (c' & Hc & _)]]]; [lia|congruence].
Qed.

Lemma elem_of_entry_moves (own opp : list Z) (roll : Z) (m : move) :
  m ∈ entry_moves own opp roll ↔
  -1 ∈ own ∧ on_track (roll - 1) ∧ ∃ c,
    landing_info own opp (roll - 1) = (true, c) ∧
    m = Move None (roll - 1) (bool_decide (roll - 1 ∈ ROSETTES)) c.
Proof.
  unfold entry_moves, on_track.
  destruct (decide (-1 ∈ own)) as [Hoff|Hno].
  2:{ rewrite elem_of_nil. tauto. }
  destruct (decide (0 ≤ roll - 1 < TRACK_LEN)) as [Hin|Hout].
  2:{ rewrite elem_of_nil. tauto. }
  destruct (landing_info own opp (roll - 1)) as [[] c] eqn:Hland.
  - rewrite list_elem_of_singleton. split.
    + intros ->. do 2 (split; [done|]). by exists c.
    + intros (_ & _ & c' & Hc & ->). congruence.
  - rewrite elem_of_nil. split; [done|].
    intros (_ & _ & c' & Hc & _). congruence.
Qed.

Lemma elem_of_legal_moves (ps : positions) (p : player) (roll : Z) (m : move) :
  m ∈ legal_moves ps p roll ↔
  roll ≠ 0 ∧
  ((∃ i pos, pieces ps p !! i = Some pos ∧
      m ∈ piece_moves (pieces ps p) (pieces ps (opponent p)) roll i pos) ∨
   m ∈ entry_moves (pieces ps p) (pieces ps (opponent p)) roll).
Proof.
  unfold legal_moves. case_decide as Hroll.
  { rewrite elem_of_nil. tauto. }
  rewrite elem_of_app, list_elem_of_join. split.
  - intros [(l & Hm & Hl)|He]; (split; [done|]); [left|by right].
    apply elem_of_lookup_imap in Hl as (i & pos & -> & Hi). by exists i, pos.
  - intros [_ [(i & pos & Hi & Hm)|He]]; [left|by right].
    eexists. split; [exact Hm|]. apply elem_of_lookup_imap. by exists i, pos.
Qed.

(** Every move of an on-track piece names that piece; the entry move does not. *)
Lemma piece_moves_piece_idx (own opp : list Z) (roll : Z) (i : nat) (pos : Z) (m : move) :
  m ∈ piece_moves own opp roll i pos → piece_idx m = Some i.
Proof.
  rewrite elem_of_piece_moves.
  intros [_ [[_ ->]|[_ (c & _ & ->)]]]; done.
Qed.

End legal_moves_membership.

(** ** The landing rule *)

Section landing_rule.

Variables (own opp : list Z).

(** What an allowed landing tells about the board. *)
Lemma landing_info_allowed (d : Z) (c : option nat) :
  landing_info own opp d = (true, c) →
  (d ∉ track_set own) ∧
  (match c with
   | Some k =>
       d ∈ CAPTURE_SQUARES ∧ on_track d ∧ opp !! k = Some d ∧
       ∀ j, (j < k)%nat → opp !! j ≠ Some d
   | None => ¬ (d ∈ SHARED ∧ d ∈ track_set opp)
   end).
Proof.
  unfold landing_info.
  destruct (decide (d ∈ track_set own)) as [|Hown]; [done|].
  destruct (decide (d ∈ SHARED ∧ d ∈ track_set opp)) as [[Hsh Hopp]|Hfree].
  - destruct (decide (d ∈ CAPTURE_SQUARES)) as [Hcap|]; [|done].
    intros [= <-]. split; [done|].
    destruct (index_by_pos_is_Some opp d Hopp) as [k Hk]. rewrite Hk.
    apply index_by_pos_Some in Hk as (Hon & Hk & Hmin). done.
  - intros [= <-]. done.
Qed.

Lemma landing_info_own_blocked (d : Z) :
  d ∈ track_set own → landing_info own opp d = (false, None).
Proof. intros Hd. unfold landing_info. by rewrite decide_True. Qed.

Lemma landing_info_capture (d : Z) :
  d ∉ track_set own → d ∈ track_set opp → d ∈ CAPTURE_SQUARES →
  ∃ k, landing_info own opp d = (true, Some k) ∧ opp !! k = Some d ∧
       ∀ j, (j < k)%nat → opp !! j ≠ Some d.
Proof.
  intros Hown Hopp Hcap. unfold landing_info.
  rewrite decide_False by done.
  assert (d ∈ SHARED) as Hsh.
  { apply elem_of_CAPTURE_SQUARES in Hcap. apply elem_of_SHARED. lia. }
  rewrite decide_True by done. rewrite decide_True by done.
  destruct (index_by_pos_is_Some opp d Hopp) as [k Hk]. rewrite Hk.
  apply index_by_pos_Some in Hk as (_ & Hk & Hmin). by exists k.
Qed.

Lemma landing_info_safe_blocked (d : Z) :
  d ∉ track_set own → d ∈ track_set opp → d ∈ SHARED → d ∉ CAPTURE_SQUARES →
  landing_info own opp d = (false, None).
Proof.
  intros Hown Hopp Hsh Hcap. unfold landing_info.
  rewrite decide_False by done. rewrite decide_True by done.
  by rewrite decide_False.
Qed.

Lemma landing_info_free (d : Z) :
  d ∉ track_set own → ¬ (d ∈ SHARED ∧ d ∈ track_set opp) →
  landing_info own opp d = (true, None).
Proof.
  intros Hown Hfree. unfold landing_info.
  rewrite decide_False by done. by rewrite decide_False.
Qed.

End landing_rule.

(** A candidate landing on the track is returned exactly when [landing_info]
    allows it, with the capture it reports and the rosette bonus. *)
Lemma candidate_legal (ps : positions) (p : player) (roll : Z)
    (k : option nat) (d : Z) (e : bool) (c : option nat) :
  candidate ps p roll k d → 0 ≤ d ≤ 13 →
  (Move k d e c ∈ legal_moves ps p roll ↔
   landing_info (pieces ps p) (pieces ps (opponent p)) d = (true, c) ∧
   e = bool_decide (d ∈ ROSETTES)).
Proof.
  intros [Hroll Hk] Hd. rewrite elem_of_legal_moves.
  destruct k as [i|].
  - destruct Hk as (pos & Hi & Hon & ->). split.
    + intros [_ [(i' & pos' & Hi' & Hm)|He]].
      * apply elem_of_piece_moves in Hm as [_ [[_ [=]]|[_ (c' & Hc & Hm)]]];
          [unfold TRACK_LEN in *; lia|].
        injection Hm as <- Hpos -> ->.
        assert (pos' = pos) as -> by congruence. done.
      * apply elem_of_entry_moves in He as (_ & _ & c' & _ & [=]).
    + intros [Hc ->]. split; [done|]. left. exists i, pos. split; [done|].
      apply elem_of_piece_moves. split; [done|]. right.
      split; [unfold TRACK_LEN; lia|]. by exists c.
  - destruct Hk as [Hoff ->]. split.
    + intros [_ [(i' & pos' & Hi' & Hm)|He]].
      * apply piece_moves_piece_idx in Hm. done.
      * apply elem_of_entry_moves in He as (_ & _ & c' & Hc & [= -> ->]). done.
    + intros [Hc ->]. split; [done|]. right.
      apply elem_of_entry_moves. split; [done|].
      split; [unfold on_track, TRACK_LEN; lia|]. by exists c.
Qed.

(** C1. For a candidate of [legal_moves] with destination [d] in 0..13: the
    move is not returned when the mover already has a piece on [d]; otherwise,
    when [d] is a shared slot (4..11) holding an opponent piece, it is returned
    with the capture of the first opponent piece on [d] if [d] is a capture
    square (shared, not a rosette) and not returned at all if [d] is the shared
    rosette 7; in every other case (free shared slot, or private slot whatever
    the opponent has at that index) it is returned without a capture. A
    returned move carries the rosette bonus of [d]. *)
Theorem landing_rule_of_legal_moves (ps : positions) (p : player) (roll : Z)
    (k : option nat) (d : Z) :
  candidate ps p roll k d → 0 ≤ d ≤ 13 →
  let own := pieces ps p in
  let opp := pieces ps (opponent p) in
  (d ∈ own → ∀ e c, Move k d e c ∉ legal_moves ps p roll) ∧
  (d ∉ own → d ∈ SHARED → d ∈ opp → d ∈ CAPTURE_SQUARES →
     ∃ j, opp !! j = Some d ∧
       ∀ e c, Move k d e c ∈ legal_moves ps p roll ↔
              c = Some j ∧ e = bool_decide (d ∈ ROSETTES)) ∧
  (d ∉ own → d ∈ opp → d = 7 → ∀ e c, Move k d e c ∉ legal_moves ps p roll) ∧
  (d ∉ own → ¬ (d ∈ SHARED ∧ d ∈ opp) →
     ∀ e c, Move k d e c ∈ legal_moves ps p roll ↔
            c = None ∧ e = bool_decide (d ∈ ROSETTES)).
Proof.
  intros Hcand Hd own opp.
  assert (Hts : ∀ l : list Z, d ∈ track_set l ↔ d ∈ l).
  { intros l. rewrite elem_of_track_set. unfold on_track, TRACK_LEN. intuition lia. }
  split_and!.
  - intros Hown e c. rewrite (candidate_legal _ _ _ _ _ _ _ Hcand Hd).
    rewrite landing_info_own_blocked by by apply Hts. by intros [[=] _].
  - intros Hown Hsh Hopp Hcap.
    destruct (landing_info_capture own opp d) as (j & Hl & Hj & _);
      [by rewrite Hts..|done|].
    exists j. split; [done|]. intros e c.
    rewrite (candidate_legal _ _ _ _ _ _ _ Hcand Hd). fold own opp.
    rewrite Hl. split; [by intros [[= <-] ->]|by intros [-> ->]].
  - intros Hown Hopp -> e c.
    rewrite (candidate_legal _ _ _ _ _ _ _ Hcand Hd). fold own opp.
    rewrite landing_info_safe_blocked; [by intros [[=] _]|by rewrite Hts..| |].
    + apply elem_of_SHARED. lia.
    + rewrite elem_of_CAPTURE_SQUARES. lia.
  - intros Hown Hfree e c.
    rewrite (candidate_legal _ _ _ _ _ _ _ Hcand Hd). fold own opp.
    rewrite landing_info_free; [|by rewrite Hts..].
    split; [by intros [[= <-] ->]|by intros [-> ->]].
Qed.

Lemma landing_rule_of_legal_moves_witness :
  candidate init_positions White 4 None 3 ∧
  Move None 3 true None ∈ legal_moves init_positions White 4.
Proof.
  assert (Hc : candidate init_positions White 4 None 3).
  { split; [done|]. split; [|done]. vm_compute. apply list_elem_of_here. }
  split; [exact Hc|].
  destruct (landing_rule_of_legal_moves init_positions White 4 None 3 Hc)
    as (_ & _ & _ & Hfree); [lia|].
  apply Hfree.
  - intros Hin. by apply (elem_of_replicate_inv 3 N_PIECES (-1)) in Hin.
  - intros [Hsh _]. apply elem_of_SHARED in Hsh. lia.
  - split; [done|]. symmetry. apply bool_decide_eq_true, elem_of_ROSETTES. lia.
Defined.

(** ** Destinations of the returned moves *)

(** Every returned move is the bear-off of an on-track piece or a landing
    that [landing_info] allowed. *)
Lemma legal_move_dest (ps : positions) (p : player) (roll : Z) (m : move) :
  m ∈ legal_moves ps p roll →
  (newpos m = TRACK_LEN ∧ extra m = false ∧ captured_idx m = None ∧
   ∃ i pos, piece_idx m = Some i ∧ pieces ps p !! i = Some pos ∧
            on_track pos ∧ pos + roll = TRACK_LEN) ∨
  (newpos m < TRACK_LEN ∧
   landing_info (pieces ps p) (pieces ps (opponent p)) (newpos m)
     = (true, captured_idx m) ∧
   extra m = bool_decide (newpos m ∈ ROSETTES) ∧
   ((∃ i pos, piece_idx m = Some i ∧ pieces ps p !! i = Some pos ∧
              on_track pos ∧ newpos m = pos + roll) ∨
    (piece_idx m = None ∧ -1 ∈ pieces ps p ∧ newpos m = roll - 1 ∧
     on_track (newpos m)))).
Proof.
  rewrite elem_of_legal_moves. intros [_ [(i & pos & Hi & Hm)|He]].
  - apply elem_of_piece_moves in Hm as [Hon [[Hoff ->]|[Hlt (c & Hc & ->)]]]; simpl.
    + left. split_and!; [done..|]. by exists i, pos.
    + right. split_and!; [done..|]. left. by exists i, pos.
  - apply elem_of_entry_moves in He as (Hoff & Hon & c & Hc & ->); simpl.
    right. split_and!; [apply Hon|done..|]. by right.
Qed.

(** C5. No move returned by [legal_moves] has a destination greater than 13
    other than exactly 14 (bear-off), and no returned move lands on an on-track
    slot that one of the mover's own pieces occupies. *)
Theorem legal_moves_destination_safe (ps : positions) (p : player) (roll : Z)
    (m : move) :
  m ∈ legal_moves ps p roll →
  (newpos m > 13 → newpos m = 14) ∧
  ¬ (on_track (newpos m) ∧ newpos m ∈ pieces ps p).
Proof.
  intros Hm. apply legal_move_dest in Hm as [(Hd & _)|(Hd & Hland & _)];
    unfold on_track, TRACK_LEN in *.
  - split; [done|]. lia.
  - split; [lia|]. intros [Hon Hin].
    apply landing_info_allowed in Hland as [Hown _].
    apply Hown, elem_of_track_set. done.
Qed.

Lemma legal_moves_destination_safe_witness :
  Move None 3 true None ∈ legal_moves init_positions White 4 ∧
  ¬ (on_track 3 ∧ 3 ∈ pieces init_positions White).
Proof.
  assert (Hm : Move None 3 true None ∈ legal_moves init_positions White 4).
  { vm_compute. apply list_elem_of_here. }
  split; [exact Hm|].
  exact (proj2 (legal_moves_destination_safe init_positions White 4 _ Hm)).
Defined.

(** ** The entry move *)

(** C6. [legal_moves] is the list of the moves of on-track pieces, each naming
    its piece, followed by at most one entry move; the entry move is present
    exactly when the player has a piece at -1, the entry slot [roll - 1] is in
    0..13 and [landing_info] allows it, and it then carries the rosette bonus
    of the entry slot and the capture [landing_info] reports. (For a zero roll
    the list is empty and the entry condition fails, so no hypothesis on the
    roll is needed.) *)
Theorem legal_moves_entry_last (ps : positions) (p : player) (roll : Z) :
  let own := pieces ps p in
  let opp := pieces ps (opponent p) in
  ∃ track_moves : list move,
    Forall (λ m, is_Some (piece_idx m)) track_moves ∧
    legal_moves ps p roll =
      track_moves ++
      (if decide (-1 ∈ own ∧ 0 ≤ roll - 1 ≤ 13 ∧ (landing_info own opp (roll - 1)).1 = true)
       then [Move None (roll - 1) (bool_decide (roll - 1 ∈ ROSETTES))
               (landing_info own opp (roll - 1)).2]
       else []).
Proof.
  intros own opp. unfold legal_moves. fold own opp.
  destruct (decide (roll = 0)) as [->|Hroll].
  { exists []. split; [constructor|]. rewrite decide_False; [done|]. lia. }
  exists (mjoin (imap (piece_moves own opp roll) own)). split.
  - apply Forall_forall. intros m Hm.
    apply list_elem_of_join in Hm as (l & Hm & Hl).
    apply elem_of_lookup_imap in Hl as (i & pos & -> & _).
    apply piece_moves_piece_idx in Hm. rewrite Hm. by eexists.
  - f_equal. unfold entry_moves, TRACK_LEN.
    destruct (decide (-1 ∈ own)) as [Hoff|Hoff].
    2:{ rewrite decide_False; [done|]. tauto. }
    destruct (decide (0 ≤ roll - 1 < 14)) as [Hin|Hout].
    2:{ rewrite decide_False; [done|]. lia. }
    destruct (landing_info own opp (roll - 1)) as [[] c]; simpl.
    + rewrite decide_True; [done|]. split_and!; [done|lia..|done].
    + rewrite decide_False; [done|]. by intros (_ & _ & [=]).
Qed.

(** ** Bearing off *)

(** C7. For an on-track piece whose position plus the roll is exactly 14,
    [legal_moves] contains the bear-off move of that piece, with no capture and
    no bonus turn; and every returned move with destination 14 carries no
    capture and no bonus turn. *)
Theorem bear_off_always_legal (ps : positions) (p : player) (roll : Z)
    (i : nat) (pos : Z) :
  pieces ps p !! i = Some pos → on_track pos → pos + roll = 14 →
  Move (Some i) 14 false None ∈ legal_moves ps p roll ∧
  ∀ m, m ∈ legal_moves ps p roll → newpos m = 14 →
       extra m = false ∧ captured_idx m = None.
Proof.
  intros Hi Hon Hsum. split.
  - apply elem_of_legal_moves. split; [unfold on_track, TRACK_LEN in Hon; lia|].
    left. exists i, pos. split; [done|].
    apply elem_of_piece_moves. split; [done|]. by left.
  - intros m Hm Hd.
    apply legal_move_dest in Hm as [(_ & He & Hc & _)|(Hlt & _)]; [done|].
    unfold TRACK_LEN in Hlt. lia.
Qed.

Lemma bear_off_always_legal_witness :
  Move (Some 2%nat) 14 false None
    ∈ legal_moves (Positions [-1; 5; 13; 14; -1; -1; -1] (replicate 7 (-1))) White 1.
Proof.
  refine (proj1 (bear_off_always_legal
            (Positions [-1; 5; 13; 14; -1; -1; -1] (replicate 7 (-1)))
            White 1 2 13 _ _ _)).
  - reflexivity.
  - unfold on_track, TRACK_LEN. lia.
  - reflexivity.
Defined.

(** ** Dice *)

Lemma choice_bit (g : rng) : (choice g [0; 1]).1 = 0 ∨ (choice g [0; 1]).1 = 1.
Proof.
  unfold choice. cbn [fst]. change (length [0; 1]) with 2%nat.
  pose proof (Nat.mod_upper_bound (draws g (cursor g)) 2) as Hlt.
  destruct (draws g (cursor g) `mod` 2)%nat as [|[|k]]; [by left|by right|lia].
Qed.

Lemma sum_choices_range (n : nat) : ∀ (g : rng) (acc : Z),
  acc ≤ (sum_choices n g acc).1 ≤ acc + Z.of_nat n.
Proof.
  induction n as [|n IH]; intros g acc; cbn [sum_choices]; [simpl; lia|].
  destruct (choice g [0; 1]) as [c g'] eqn:Hc.
  pose proof (choice_bit g) as Hbit. rewrite Hc in Hbit. simpl in Hbit.
  specialize (IH g' (acc + c)). lia.
Qed.

(** [rng.choice([0, 1])] returns the next draw reduced modulo 2 and moves the
    generator on by one draw. *)
Lemma choice_binary (g : rng) :
  choice g [0; 1] =
    (Z.of_nat (draws g (cursor g) `mod` 2), Rng (draws g) (S (cursor g))).
Proof.
  unfold choice. change (length [0; 1]) with 2%nat. f_equal.
  pose proof (Nat.mod_upper_bound (draws g (cursor g)) 2) as Hlt.
  destruct (draws g (cursor g) `mod` 2)%nat as [|[|k]]; [done|done|lia].
Qed.

(** C9. [roll_dice] returns the sum of four binary draws, the next four draws
    of the generator each reduced to 0 or 1, and leaves the generator four
    draws further; the sum is an integer in [0, 4]. [legal_moves] with roll 0
    is empty whatever the board. *)
Theorem roll_range_and_zero_roll :
  (∀ g : rng,
     (roll_dice g).1 =
       Z.of_nat (draws g (cursor g) `mod` 2)
       + Z.of_nat (draws g (cursor g + 1) `mod` 2)
       + Z.of_nat (draws g (cursor g + 2) `mod` 2)
       + Z.of_nat (draws g (cursor g + 3) `mod` 2) ∧
     (roll_dice g).2 = Rng (draws g) (cursor g + 4) ∧
     0 ≤ (roll_dice g).1 ≤ 4) ∧
  (∀ (ps : positions) (p : player), legal_moves ps p 0 = []).
Proof.
  split.
  - intros g. split; [|split].
    + destruct g as [f n]. unfold roll_dice. cbn [sum_choices].
      rewrite !choice_binary. cbn [draws cursor fst].
      replace (n + 1)%nat with (S n) by lia.
      replace (n + 2)%nat with (S (S n)) by lia.
      replace (n + 3)%nat with (S (S (S n))) by lia. lia.
    + destruct g as [f n]. unfold roll_dice. cbn [sum_choices].
      rewrite !choice_binary. cbn [draws cursor snd]. f_equal. lia.
    + unfold roll_dice. pose proof (sum_choices_range 4 g 0). lia.
  - intros ps p. unfold legal_moves. by rewrite decide_True.
Qed.

(** ** Applying a move *)

Section apply_move.

Lemma pieces_set_pieces (ps : positions) (p : player) (l : list Z) :
  pieces (set_pieces ps p l) p = l.
Proof. by destruct p. Qed.

Lemma pieces_set_pieces_opponent (ps : positions) (p : player) (l : list Z) :
  pieces (set_pieces ps (opponent p) l) p = pieces ps p.
Proof. by destruct p. Qed.

Lemma pieces_set_pieces_other (ps : positions) (p : player) (l : list Z) :
  pieces (set_pieces ps p l) (opponent p) = pieces ps (opponent p).
Proof. by destruct p. Qed.

Lemma opponent_involutive (p : player) : opponent (opponent p) = p.
Proof. by destruct p. Qed.

Lemma player_cases (p q : player) : q = p ∨ q = opponent p.
Proof. destruct p, q; auto. Qed.

Lemma pieces_capture_own (ps : positions) (p : player) (c : option nat) :
  pieces (capture ps p c) p = pieces ps p.
Proof. destruct c; [apply pieces_set_pieces_opponent|done]. Qed.

Lemma pieces_capture_opponent (ps : positions) (p : player) (c : option nat) :
  pieces (capture ps p c) (opponent p) =
    match c with
    | Some k => <[k := -1]> (pieces ps (opponent p))
    | None => pieces ps (opponent p)
    end.
Proof. destruct c; [apply pieces_set_pieces|done]. Qed.

(** [l.index(v)] finds the lowest index holding [v]. *)
Lemma list_index_Return (l : list Z) (v : Z) (i : nat) :
  list_index l v = Return i ↔
  l !! i = Some v ∧ ∀ j, (j < i)%nat → l !! j ≠ Some v.
Proof.
  unfold list_index. split.
  - destruct (list_find _ l) as [[k y]|] eqn:Hfind; [|done].
    intros [= ->]. apply list_find_Some in Hfind as (Hk & -> & Hmin).
    split; [done|]. intros j Hj Hl. by apply (Hmin j v).
  - intros [Hi Hmin].
    assert (list_find (λ x, x = v) l = Some (i, v)) as ->; [|done].
    apply list_find_Some. split_and!; [done..|].
    intros j y Hl Hj ->. by apply (Hmin j).
Qed.

Lemma list_index_elem_of (l : list Z) (v : Z) :
  v ∈ l → ∃ i, list_index l v = Return i.
Proof.
  intros Hin. unfold list_index.
  destruct (list_find (λ x, x = v) l) as [[i y]|] eqn:Hfind; [by exists i|].
  exfalso. eapply list_find_None in Hfind.
  by eapply (proj1 (Forall_forall _ _) Hfind v).
Qed.

(** [apply_move] on a move whose indices exist: the capture is written, then
    piece [i] (the named piece, or the first off-board one for an entry) is
    put on the destination, and the move's bonus flag is returned. *)
Lemma apply_move_Return (ps : positions) (p : player) (m : move) (i : nat) :
  (∀ k, captured_idx m = Some k → (k < length (pieces ps (opponent p)))%nat) →
  match piece_idx m with
  | Some j => j = i ∧ (i < length (pieces ps p))%nat
  | None => list_index (pieces ps p) (-1) = Return i
  end →
  apply_move ps p m =
    (set_pieces (capture ps p (captured_idx m)) p (<[i := newpos m]> (pieces ps p)),
     Return (extra m)).
Proof.
  intros Hcap Hidx. unfold apply_move, list_store.
  destruct (captured_idx m) as [k|]; simpl.
  - rewrite decide_True by by apply Hcap.
    rewrite pieces_set_pieces_opponent.
    destruct (piece_idx m) as [j|].
    + destruct Hidx as [-> Hi]. by rewrite decide_True.
    + rewrite Hidx. apply list_index_Return in Hidx as [Hi _].
      apply lookup_lt_Some in Hi. by rewrite decide_True.
  - destruct (piece_idx m) as [j|].
    + destruct Hidx as [-> Hi]. by rewrite decide_True.
    + rewrite Hidx. apply list_index_Return in Hidx as [Hi _].
      apply lookup_lt_Some in Hi. by rewrite decide_True.
Qed.

(** A move returned by [legal_moves] is always applied without an exception. *)
Lemma apply_legal_move (ps : positions) (p : player) (roll : Z) (m : move) :
  m ∈ legal_moves ps p roll →
  ∃ i src,
    pieces ps p !! i = Some src ∧
    (piece_idx m = Some i ∧ on_track src ∧ newpos m = src + roll ∨
     piece_idx m = None ∧ src = -1) ∧
    apply_move ps p m =
      (set_pieces (capture ps p (captured_idx m)) p
         (<[i := newpos m]> (pieces ps p)),
       Return (extra m)).
Proof.
  intros Hm.
  assert (Hcap : ∀ k, captured_idx m = Some k →
                      (k < length (pieces ps (opponent p)))%nat).
  { intros k Hk.
    apply legal_move_dest in Hm as [(_ & _ & Hc & _)|(_ & Hland & _)];
      [congruence|].
    rewrite Hk in Hland. apply landing_info_allowed in Hland as (_ & _ & _ & Hl & _).
    by apply lookup_lt_Some in Hl. }
  assert (Hsrc : (∃ i pos, piece_idx m = Some i ∧ pieces ps p !! i = Some pos ∧
                           on_track pos ∧ newpos m = pos + roll) ∨
                 (piece_idx m = None ∧ -1 ∈ pieces ps p)).
  { apply legal_move_dest in Hm
      as [(Hd & _ & _ & i & pos & ? & ? & ? & ?)|(_ & _ & _ & [?|(? & ? & _)])];
      [left; exists i, pos; split_and!; [done..|lia]|by left|by right]. }
  destruct Hsrc as [(i & pos & Hpi & Hi & Hon & Hd)|[Hpi Hoff]].
  - exists i, pos. split; [done|]. split; [by left|].
    apply apply_move_Return; [done|]. rewrite Hpi. split; [done|].
    by apply lookup_lt_Some in Hi.
  - destruct (list_index_elem_of _ _ Hoff) as [i Hidx].
    exists i, (-1). pose proof Hidx as [Hi _]%list_index_Return.
    split; [done|]. split; [by right|].
    apply apply_move_Return; [done|]. by rewrite Hpi.
Qed.

End apply_move.

(** An entry move whose capture reference names no opponent piece: the
    player has off-board pieces, yet [apply_move] raises IndexError at the
    capture write and places nothing. *)
Lemma entry_bad_capture_counterexample :
  let ps := Positions [5; -1; 14; -1; -1; -1; -1] (replicate 7 (-1)) in
  -1 ∈ pieces ps White ∧
  apply_move ps White (Move None 3 true (Some 7%nat)) = (ps, Raise IndexError).
Proof.
  intros ps. split; [|reflexivity].
  apply list_elem_of_lookup. by exists 1%nat.
Qed.

(** C10, as the code has it. Given an entry move (no piece reference) while
    the player has an off-board piece, and provided the capture reference of
    the move, if any, is the index of an existing opponent piece (as in every
    move [legal_moves] returns), [apply_move] returns the move's bonus flag
    and puts the lowest-indexed piece whose position is -1 on the destination:
    afterwards that piece is at the destination, every other piece of the
    mover is where it was, the captured piece is at -1 and every other
    opponent piece is where it was. *)
Theorem entry_places_first_off_board (ps : positions) (p : player)
    (d : Z) (e : bool) (c : option nat) :
  -1 ∈ pieces ps p →
  (∀ k, c = Some k → (k < length (pieces ps (opponent p)))%nat) →
  let ps' := (apply_move ps p (Move None d e c)).1 in
  (apply_move ps p (Move None d e c)).2 = Return e ∧
  ∃ i : nat,
    pieces ps p !! i = Some (-1) ∧
    (∀ j, (j < i)%nat → pieces ps p !! j ≠ Some (-1)) ∧
    pieces ps' p !! i = Some d ∧
    (∀ j, j ≠ i → pieces ps' p !! j = pieces ps p !! j) ∧
    (∀ k, c = Some k → pieces ps' (opponent p) !! k = Some (-1)) ∧
    (∀ j, c ≠ Some j →
          pieces ps' (opponent p) !! j = pieces ps (opponent p) !! j).
Proof.
  intros Hoff Hcap ps'.
  destruct (list_index_elem_of _ _ Hoff) as [i Hidx].
  pose proof Hidx as [Hi Hmin]%list_index_Return.
  assert (Happ : apply_move ps p (Move None d e c) =
                 (set_pieces (capture ps p c) p (<[i := d]> (pieces ps p)),
                  Return e))
    by by apply (apply_move_Return ps p (Move None d e c) i).
  unfold ps'. rewrite Happ. cbn [fst snd]. split; [done|].
  exists i. split; [done|]. split; [done|]. split_and!.
  - rewrite pieces_set_pieces. apply list_lookup_insert_Some. left.
    split_and!; [done..|]. by apply lookup_lt_Some in Hi.
  - intros j Hj. rewrite pieces_set_pieces. by apply list_lookup_insert_ne.
  - intros k ->. rewrite pieces_set_pieces_other, pieces_capture_opponent.
    apply list_lookup_insert_Some. left. split_and!; [done..|]. by apply Hcap.
  - intros j Hj. rewrite pieces_set_pieces_other, pieces_capture_opponent.
    destruct c as [k|]; [|done]. apply list_lookup_insert_ne. congruence.
Qed.

Lemma entry_places_first_off_board_witness :
  let ps := Positions [5; -1; 14; -1; -1; -1; -1] [14; 3; -1; -1; -1; -1; -1] in
  let ps' := (apply_move ps White (Move None 4 false (Some 1%nat))).1 in
  (apply_move ps White (Move None 4 false (Some 1%nat))).2 = Return false ∧
  ∃ i : nat,
    pieces ps White !! i = Some (-1) ∧
    (∀ j, (j < i)%nat → pieces ps White !! j ≠ Some (-1)) ∧
    pieces ps' White !! i = Some 4 ∧
    (∀ j, j ≠ i → pieces ps' White !! j = pieces ps White !! j) ∧
    (∀ k, Some 1%nat = Some k → pieces ps' Black !! k = Some (-1)) ∧
    (∀ j, Some 1%nat ≠ Some j → pieces ps' Black !! j = pieces ps Black !! j).
Proof.
  intros ps. apply (entry_places_first_off_board ps White 4 false (Some 1%nat)).
  - apply list_elem_of_lookup. by exists 1%nat.
  - intros k [= <-]. simpl. lia.
Defined.

(** The same entry on a concrete board: the second piece, the first one at
    -1, is the one placed. *)
Example apply_entry_second_piece :
  apply_move (Positions [5; -1; 14; -1; -1; -1; -1] (replicate 7 (-1))) White
    (Move None 3 true None)
  = (Positions [5; 3; 14; -1; -1; -1; -1] (replicate 7 (-1)), Return true).
Proof. reflexivity. Qed.

(** ** Winning and bearing off *)

Lemma is_winner_true (ps : positions) (p : player) :
  is_winner ps p = true ↔ ∀ i x, pieces ps p !! i = Some x → x = 14.
Proof.
  unfold is_winner. rewrite forallb_forall. split.
  - intros H i x Hi. change 14 with TRACK_LEN.
    eapply bool_decide_eq_true_1, H, list_elem_of_In, list_elem_of_lookup_2, Hi.
  - intros H x [i Hi]%list_elem_of_In%list_elem_of_lookup.
    apply bool_decide_eq_true_2. by apply (H i).
Qed.

(** A position that a legal move turns into 14 belongs to the mover's piece
    named by the move, and the move is its bear-off. *)
Lemma only_bear_off_reaches_14 (ps ps' : positions) (p q : player) (roll : Z)
    (m : move) (r : result bool) (j : nat) :
  m ∈ legal_moves ps p roll → apply_move ps p m = (ps', r) →
  pieces ps' q !! j = Some 14 → pieces ps q !! j ≠ Some 14 →
  q = p ∧ m = Move (Some j) 14 false None.
Proof.
  intros Hm Happ Hnew Hold.
  destruct (apply_legal_move _ _ _ _ Hm) as (i & src & Hi & Hsrc & Heq).
  rewrite Heq in Happ. injection Happ as <- <-.
  destruct (player_cases p q) as [->| ->].
  - rewrite pieces_set_pieces in Hnew.
    apply list_lookup_insert_Some in Hnew as [(-> & Hd & _)|[_ ?]]; [|done].
    split; [done|].
    apply legal_move_dest in Hm
      as [(_ & He & Hc & i' & pos & Hpi & _)|(Hlt & _)];
      [|unfold TRACK_LEN in Hlt; lia].
    destruct Hsrc as [(Hpj & _)|(Hnone & _)]; [|congruence].
    destruct m as [pi d e c]; simpl in *. congruence.
  - exfalso. rewrite pieces_set_pieces_other, pieces_capture_opponent in Hnew.
    destruct (captured_idx m) as [k|]; [|done].
    apply list_lookup_insert_Some in Hnew as [(_ & ? & _)|[_ ?]]; done.
Qed.

(** C8. [is_winner] holds exactly when every piece of the player is at 14; and
    when a move returned by [legal_moves] is applied, a piece that was not at
    14 is at 14 afterwards only if it is the mover's piece named by the move
    and the move is its bear-off (destination 14, no bonus, no capture). *)
Theorem winner_and_bear_off :
  (∀ (ps : positions) (p : player),
     is_winner ps p = true ↔ ∀ i x, pieces ps p !! i = Some x → x = 14) ∧
  (∀ (ps ps' : positions) (p q : player) (roll : Z) (m : move)
     (r : result bool) (j : nat),
     m ∈ legal_moves ps p roll → apply_move ps p m = (ps', r) →
     pieces ps' q !! j = Some 14 → pieces ps q !! j ≠ Some 14 →
     q = p ∧ m = Move (Some j) 14 false None).
Proof.
  split; [apply is_winner_true|apply only_bear_off_reaches_14].
Qed.

Lemma winner_and_bear_off_witness :
  let ps := Positions [-1; 5; 13; 14; -1; -1; -1] (replicate 7 (-1)) in
  let ps' := Positions [-1; 5; 14; 14; -1; -1; -1] (replicate 7 (-1)) in
  Move (Some 2%nat) 14 false None ∈ legal_moves ps White 1 ∧
  apply_move ps White (Move (Some 2%nat) 14 false None) = (ps', Return false) ∧
  White = White ∧ Move (Some 2%nat) 14 false None = Move (Some 2%nat) 14 false None.
Proof.
  intros ps ps'.
  assert (Hm : Move (Some 2%nat) 14 false None ∈ legal_moves ps White 1).
  { vm_compute. apply list_elem_of_further, list_elem_of_here. }
  assert (Happ : apply_move ps White (Move (Some 2%nat) 14 false None)
                 = (ps', Return false)) by reflexivity.
  split; [exact Hm|]. split; [exact Happ|].
  apply (proj2 winner_and_bear_off ps ps' White White 1 _ _ 2%nat Hm Happ).
  - reflexivity.
  - discriminate.
Defined.

(** ** Reachable boards *)

Section board_ok.

Lemma elem_of_insert_inv (l : list Z) (i : nat) (d x : Z) :
  x ∈ <[i := d]> l → x = d ∨ x ∈ l.
Proof.
  intros [j Hj]%list_elem_of_lookup.
  apply list_lookup_insert_Some in Hj as [(_ & -> & _)|[_ Hj]]; [by left|].
  right. by eapply list_elem_of_lookup_2.
Qed.

Lemma no_stack_insert (l : list Z) (i : nat) (d : Z) :
  no_stack l → (on_track d → d ∉ l) → no_stack (<[i := d]> l).
Proof.
  intros Hl Hd a b x Ha Hb Hx.
  apply list_lookup_insert_Some in Ha as [(<- & <- & _)|[Hai Ha]];
    apply list_lookup_insert_Some in Hb as [(<- & Hbd & _)|[Hbi Hb]].
  - done.
  - exfalso. by eapply Hd, list_elem_of_lookup_2.
  - subst x. exfalso. by eapply Hd, list_elem_of_lookup_2.
  - by apply (Hl a b x).
Qed.

Lemma exclusive_sym (l1 l2 : list Z) : exclusive l1 l2 → exclusive l2 l1.
Proof. intros H x Hx H2 H1. by apply (H x). Qed.

Lemma init_positions_ok : board_ok init_positions.
Proof.
  split.
  - by intros [].
  - intros []; by apply Forall_replicate.
  - intros p i j x Hi _ Hx.
    assert (x = -1) as ->.
    { destruct p; by apply lookup_replicate in Hi as [-> _]. }
    unfold on_track in Hx. lia.
  - intros p x Hx Hin _.
    assert (x = -1) as ->.
    { destruct p; by apply elem_of_replicate_inv in Hin. }
    apply elem_of_SHARED in Hx. lia.
Qed.

(** The board after putting piece [i] of [p] on [d] and sending back the
    captured piece [c], under what a legal move guarantees about [d] and [c]. *)
Lemma place_piece_ok (ps : positions) (p : player) (i : nat) (d : Z) (c : option nat) :
  board_ok ps →
  -1 ≤ d ≤ 14 →
  (on_track d → d ∉ pieces ps p) →
  (d ∈ SHARED → d ∈ pieces (capture ps p c) (opponent p) → False) →
  board_ok (set_pieces (capture ps p c) p (<[i := d]> (pieces ps p))).
Proof.
  intros [Hlen Hrange Hstack Hexcl] Hd Hown Hopp.
  set (ps1 := capture ps p c) in *.
  assert (Hopp1 : ∀ j x, pieces ps1 (opponent p) !! j = Some x →
                         x = -1 ∨ pieces ps (opponent p) !! j = Some x).
  { intros j x. unfold ps1. rewrite pieces_capture_opponent.
    destruct c as [k|]; [|by right].
    intros [(_ & <- & _)|[_ ?]]%list_lookup_insert_Some; [by left|by right]. }
  assert (Hown' : pieces (set_pieces ps1 p (<[i := d]> (pieces ps p))) p
                  = <[i := d]> (pieces ps p)) by apply pieces_set_pieces.
  assert (Hopp' : pieces (set_pieces ps1 p (<[i := d]> (pieces ps p))) (opponent p)
                  = pieces ps1 (opponent p)) by apply pieces_set_pieces_other.
  assert (Hex : exclusive (<[i := d]> (pieces ps p)) (pieces ps1 (opponent p))).
  { intros x Hx H1 H2. apply elem_of_insert_inv in H1 as [->|H1]; [by apply Hopp|].
    apply list_elem_of_lookup in H2 as [j Hj].
    apply Hopp1 in Hj as [->|Hj]; [apply elem_of_SHARED in Hx; lia|].
    apply (Hexcl p x); [done..|]. by eapply list_elem_of_lookup_2. }
  split; intros q; destruct (player_cases p q) as [->| ->];
    rewrite ?opponent_involutive, ?Hown', ?Hopp'.
  - by rewrite length_insert.
  - unfold ps1. rewrite pieces_capture_opponent.
    destruct c; [rewrite length_insert|]; apply Hlen.
  - unfold in_range. apply Forall_insert; [apply Hrange|exact Hd].
  - unfold ps1, in_range. rewrite pieces_capture_opponent.
    destruct c; [apply Forall_insert; [|lia]|]; apply Hrange.
  - by apply no_stack_insert.
  - unfold ps1. rewrite pieces_capture_opponent.
    destruct c; [apply no_stack_insert; [|unfold on_track; lia]|]; apply Hstack.
  - done.
  - by apply exclusive_sym.
Qed.

Lemma apply_legal_move_ok (ps : positions) (p : player) (roll : Z) (m : move) :
  board_ok ps → 0 ≤ roll → m ∈ legal_moves ps p roll →
  board_ok (apply_move ps p m).1.
Proof.
  intros Hok Hroll Hm.
  destruct (apply_legal_move _ _ _ _ Hm) as (i & src & Hi & Hsrc & ->). simpl.
  pose proof (legal_move_dest _ _ _ _ Hm) as Hdest.
  unfold on_track, TRACK_LEN in *.
  apply place_piece_ok; [done|..].
  - destruct Hdest
      as [(Hd & _)|(Hlt & _ & _ & [(i' & pos & _ & _ & Hpos & Hd)|(_ & _ & _ & Hon)])];
      lia.
  - intros Hon Hin.
    destruct Hdest as [(Hd & _)|(_ & Hland & _)];
      [unfold on_track, TRACK_LEN in Hon; lia|].
    apply landing_info_allowed in Hland as [Hfree _].
    apply Hfree, elem_of_track_set. done.
  - intros Hsh Hin. pose proof Hsh as Hshared. apply elem_of_SHARED in Hsh.
    destruct Hdest as [(Hd & _)|(_ & Hland & _)]; [lia|].
    apply landing_info_allowed in Hland as [_ Hc].
    rewrite pieces_capture_opponent in Hin.
    destruct (captured_idx m) as [k|].
    + destruct Hc as (_ & Hon & Hk & _).
      apply list_elem_of_lookup in Hin as [j Hj].
      apply list_lookup_insert_Some in Hj as [(_ & ? & _)|[Hne Hj]]; [lia|].
      apply Hne. by apply (ok_no_stack _ Hok (opponent p) k j (newpos m)).
    + apply Hc. split; [done|]. apply elem_of_track_set.
      split; [done|]. unfold on_track, TRACK_LEN. lia.
Qed.

Lemma reachable_ok (ps : positions) : reachable ps → board_ok ps.
Proof.
  induction 1 as [|ps p roll m _ IH Hroll Hm].
  - apply init_positions_ok.
  - by apply (apply_legal_move_ok ps p roll).
Qed.

End board_ok.

(** C3. In every board reachable from the initial one through moves returned
    by [legal_moves]: every position is in [-1, 14], no player has two pieces
    on the same on-track slot 0..13, and no shared slot 4..11 holds pieces of
    both players. *)
Theorem reachable_invariant (ps : positions) :
  reachable ps →
  (∀ p x, x ∈ pieces ps p → -1 ≤ x ≤ 14) ∧
  (∀ p i j x, pieces ps p !! i = Some x → pieces ps p !! j = Some x →
              0 ≤ x ≤ 13 → i = j) ∧
  (∀ x, 4 ≤ x ≤ 11 → ¬ (x ∈ white ps ∧ x ∈ black ps)).
Proof.
  intros [Hlen Hrange Hstack Hexcl]%reachable_ok. split_and!.
  - intros p x Hx. by apply (proj1 (Forall_forall _ _) (Hrange p)).
  - intros p i j x Hi Hj Hx. apply (Hstack p i j x); [done..|].
    unfold on_track, TRACK_LEN. lia.
  - intros x Hx [Hw Hb]. apply (Hexcl White x); [by apply elem_of_SHARED|done..].
Qed.

Lemma reachable_invariant_witness :
  let ps := (apply_move init_positions White (Move None 3 true None)).1 in
  reachable ps ∧ ∀ x, 4 ≤ x ≤ 11 → ¬ (x ∈ white ps ∧ x ∈ black ps).
Proof.
  intros ps.
  assert (Hr : reachable ps).
  { apply (reachable_move init_positions White 4); [constructor|lia|].
    vm_compute. apply list_elem_of_here. }
  split; [exact Hr|]. exact (proj2 (proj2 (reachable_invariant ps Hr))).
Defined.

(** ** Turn hand-off *)

Section turn_handoff.

Lemma elem_of_QUIZ_TRIGGER_ROSETTES (x : Z) :
  x ∈ QUIZ_TRIGGER_ROSETTES ↔ x = 3 ∨ x = 7.
Proof.
  unfold QUIZ_TRIGGER_ROSETTES. rewrite elem_of_union, !elem_of_singleton. tauto.
Qed.

(** The bonus flag of a returned move is the rosette test of its destination. *)
Lemma legal_move_extra (ps : positions) (p : player) (roll : Z) (m : move) :
  m ∈ legal_moves ps p roll → extra m = bool_decide (newpos m ∈ ROSETTES).
Proof.
  intros [(Hd & -> & _)|(_ & _ & He & _)]%legal_move_dest; [|done].
  symmetry. apply bool_decide_eq_false. rewrite elem_of_ROSETTES, Hd.
  unfold TRACK_LEN. lia.
Qed.

(** The move picked by the destination handler is one of the enumerated moves,
    belongs to the selected piece and lands on the clicked square. *)
Lemma chosen_move_Some (u : ui) (c : click) (m : move) :
  chosen_move u c = Some m →
  m ∈ ui_legal_moves u ∧ piece_idx m = selected_piece u ∧
  ∃ owner, on_square c = Some (newpos m, owner).
Proof.
  unfold chosen_move, moves_for_piece.
  destruct (on_square c) as [[pos_clicked owner]|]; [|done].
  destruct (owner_allows _ _); [|done].
  destruct (list_find _ _) as [[k m']|] eqn:Hfind; [|done].
  intros [= ->]. apply list_find_Some in Hfind as (Hk & <- & _).
  apply list_elem_of_lookup_2, list_elem_of_filter in Hk as [Hpi Hin].
  split; [done|]. split; [done|]. by exists owner.
Qed.

Lemma until_await_roll_settled (evs : list event) :
  ∀ (u u2 : ui) (v v2 : option bool),
    settled u → until_await_roll evs u v = Some (u2, v2) →
    current_player (the_game u2) = current_player (the_game u) ∧ v2 = v.
Proof.
  induction evs as [|e evs IH]; intros u u2 v v2 Hs Hrun.
  - simpl in Hrun. case_decide; [by injection Hrun as <- <-|done].
  - simpl in Hrun. case_decide as Hroll; [by injection Hrun as <- <-|].
    destruct u as [gm st rv ms sel qi qc qp qo qf cf post].
    unfold settled in Hs. simpl in Hs, Hroll.
    destruct Hs as [->|[->|[-> Hpost]]]; [done|..].
    + destruct e as [c|]; simpl in Hrun.
      * by apply IH in Hrun; [|right; left].
      * unfold tick in Hrun. simpl in Hrun.
        destruct (decide (_ ≤ 0)); simpl in Hrun;
          (apply IH in Hrun; [done|]); [by left|by right; left].
    + destruct e as [c|]; simpl in Hrun.
      * by apply IH in Hrun; [|right; right].
      * unfold tick in Hrun. simpl in Hrun.
        destruct (decide (_ ≤ 0)); simpl in Hrun.
        -- destruct Hpost as [->| ->]; simpl in Hrun;
             (apply IH in Hrun; [done|by left]).
        -- apply IH in Hrun; [done|]. right; right. done.
Qed.

Lemma until_await_roll_quiz (p : player) (evs : list event) :
  ∀ (u u2 : ui) (v v2 : option bool),
    quiz_pending p u → until_await_roll evs u v = Some (u2, v2) →
    ∃ b : bool, v2 = Some b ∧
      current_player (the_game u2) = if b then p else opponent p.
Proof.
  induction evs as [|e evs IH]; intros u u2 v v2 (Hqp & [q Hqc] & Hst) Hrun.
  - simpl in Hrun. case_decide as Hroll; [|done].
    destruct Hst as [Hst|[Hst _]]; congruence.
  - simpl in Hrun. case_decide as Hroll.
    { destruct Hst as [Hst|[Hst _]]; congruence. }
    destruct u as [gm st rv ms sel qi qc qp qo qf cf post].
    simpl in Hqp, Hqc, Hst, Hroll. subst qp qc.
    destruct Hst as [->|[-> ->]].
    + destruct e as [c|]; simpl in Hrun.
      * unfold click_quiz in Hrun. simpl in Hrun.
        destruct (on_answer c) as [idx|]; simpl in Hrun.
        -- exists (bool_decide (Some idx = qo)).
           apply until_await_roll_settled in Hrun as [-> ->];
             [|by right; left].
           split; [done|]. by destruct (bool_decide _).
        -- apply IH in Hrun; [done|]. split_and!; [done|by eexists|by left].
      * apply IH in Hrun; [done|]. split_and!; [done|by eexists|by left].
    + destruct e as [c|]; simpl in Hrun.
      * apply IH in Hrun; [done|]. split_and!; [done|by eexists|by right].
      * unfold tick in Hrun. simpl in Hrun.
        destruct (decide (_ ≤ 0)); simpl in Hrun;
          (apply IH in Hrun; [done|]); (split_and!; [done|by eexists|]);
          [by left|by right].
Qed.

End turn_handoff.

(** ** What holds in every state of the main loop *)

Section ui_ok.

Lemma tick_ok (u : ui) : ui_ok u → ui_ok (tick u).
Proof.
  destruct u as [gm st rv ms sel qi qc qp qo qf cf post].
  intros (Hq & Hp1 & Hp2 & Hl). simpl in *.
  destruct st, post as [[]|]; try done;
    unfold tick; simpl; repeat (case_decide; simpl);
    split_and!; try done; intros [|]; try done; by apply Hl; auto.
Qed.

Lemma after_move_ok (u u' : ui) (m : move) (ps' : positions) (e : bool) :
  ui_ok u → after_move u m ps' e = Return u' → ui_ok u'.
Proof.
  destruct u as [gm st rv ms sel qi qc qp qo qf cf post].
  intros (Hq & Hp1 & Hp2 & _). unfold after_move; simpl in *.
  destruct (is_winner ps' _); simpl.
  { destruct (captured_idx m); intros [= <-]; simpl;
      split_and!; try done; intros [|]; done. }
  destruct (e && _); simpl.
  { destruct (QUIZ_QUESTIONS !! qi); simpl; [|done].
    destruct (captured_idx m); intros [= <-]; simpl;
      split_and!; try done; intros [|]; done. }
  destruct e; simpl;
    destruct (captured_idx m); intros [= <-]; simpl;
      split_and!; try done; intros [|]; done.
Qed.

Lemma handle_click_ok (u u' : ui) (c : click) :
  ui_ok u → handle_click u c = Return u' → ui_ok u'.
Proof.
  intros Hok. pose proof Hok as (Hq & Hp1 & Hp2 & Hl).
  unfold handle_click. destruct (state u) eqn:Hst.
  - intros [= <-]. destruct (on_roll_btn c); [|done].
    unfold click_roll. destruct (roll_dice _) as [r g'].
    destruct (_ || _); simpl; split_and!; try done; [intros [|]; done|].
    intros _. by exists r.
  - intros [= <-]. unfold click_select.
    assert (Hsel : ∀ sel, ui_ok (set_turn await_dest (roll_value u)
                                   (ui_legal_moves u) sel u)).
    { intros sel. split_and!; try done. intros _. apply Hl. by left. }
    destruct (on_square c) as [[pos owner]|];
      [destruct (owner_allows _ _);
       [destruct (_ !! pos);
        [destruct (piece_can_move u _)|]|]|];
      destruct (on_rack c); try done;
      try (destruct (piece_can_move _ None); try done; simpl; apply Hsel).
  - unfold click_dest. destruct (chosen_move u c) as [m|].
    + destruct (apply_move _ _ m) as [ps' [e|e]]; [|done].
      by apply after_move_ok.
    + intros [= <-]. split_and!; try done. intros _. apply Hl. by right.
  - intros [= <-]. destruct (on_cont_btn c); [|done].
    unfold click_continue; simpl. split_and!; try done. intros [|]; done.
  - intros [= <-]. unfold click_quiz.
    destruct (quiz_current u); [|done]. destruct (on_answer c) as [idx|]; [|done].
    assert (Hn : (((quiz_question_index u + 1) `mod` length QUIZ_QUESTIONS)
                  < length QUIZ_QUESTIONS)%nat)
      by by apply Nat.mod_upper_bound.
    set (nxt := ((quiz_question_index u + 1) `mod` length QUIZ_QUESTIONS)%nat) in *.
    clearbody nxt.
    simpl. split_and!.
    + done.
    + by destruct (quiz_player u); [destruct (bool_decide _)|].
    + by destruct (quiz_player u); [destruct (bool_decide _)|].
    + intros [|]; done.
  - intros [= <-]. unfold click_game_over. destruct (on_roll_btn c); [|done].
    simpl. split_and!; try done. intros [|]; done.
  - by intros [= <-].
  - by intros [= <-].
Qed.

Lemma ui_reachable_ok (u : ui) : ui_reachable u → ui_ok u.
Proof.
  induction 1 as [g|u u' e _ IH Hstep].
  - split_and!; simpl; try done; [lia|intros [|]; done].
  - destruct e as [c|]; simpl in Hstep.
    + by apply (handle_click_ok u u' c).
    + injection Hstep as <-. by apply tick_ok.
Qed.

End ui_ok.

(** In a state of the main loop awaiting a destination, the click that picks
    [m] makes the handler apply [m] and carry on without an exception. *)
Lemma turn_handoff_applies (u : ui) (c : click) (m : move) :
  ui_reachable u → state u = await_dest → chosen_move u c = Some m →
  ∃ u1 : ui,
    handle_click u c = Return u1 ∧
    game_positions (the_game u1)
      = (apply_move (game_positions (the_game u)) (current_player (the_game u)) m).1.
Proof.
  intros Hreach Hst Hchosen.
  destruct (ui_reachable_ok u Hreach) as (Hq & _ & _ & Hl).
  destruct Hl as [r Hlegal]; [by right|].
  destruct (chosen_move_Some u c m Hchosen) as (Hm & _).
  rewrite Hlegal in Hm.
  destruct (apply_legal_move _ _ _ _ Hm) as (i & src & _ & _ & Happ).
  apply lookup_lt_is_Some_2 in Hq as [q Hquiz].
  unfold handle_click, click_dest. rewrite Hst, Hchosen, Happ.
  set (ps' := set_pieces _ _ _). cbn [fst].
  destruct u as [[ps p0 g] st rv ms sel qi qc qp qo qf cf post].
  simpl in Hquiz. unfold after_move. cbn [the_game current_player
    game_positions game_rng set_game set_turn state roll_value
    quiz_question_index quiz_feedback_frames].
  rewrite Hquiz.
  destruct (is_winner ps' p0); [|destruct (extra m && _); [|destruct (extra m)]];
    destruct (captured_idx m); eexists; (split; [reflexivity|reflexivity]).
Qed.

(** The hand-off law on every run that reaches the next "await_roll". *)
Lemma turn_handoff_law (u : ui) (c : click) (m : move) :
  ui_reachable u → state u = await_dest → chosen_move u c = Some m →
  let p := current_player (the_game u) in
  ∃ u1 : ui,
    handle_click u c = Return u1 ∧
    game_positions (the_game u1) = (apply_move (game_positions (the_game u)) p m).1 ∧
    (is_winner (game_positions (the_game u1)) p = false →
     ∀ (evs : list event) (u2 : ui) (v : option bool),
       until_await_roll evs u1 None = Some (u2, v) →
       (current_player (the_game u2) = p ↔
        newpos m ∈ ROSETTES ∧
        (newpos m ∉ QUIZ_TRIGGER_ROSETTES ∨ v = Some true)) ∧
       (current_player (the_game u2) ≠ p →
        current_player (the_game u2) = opponent p)).
Proof.
  intros Hreach Hst Hchosen p.
  destruct (ui_reachable_ok u Hreach) as (Hq & _ & _ & Hl).
  destruct Hl as [r Hlegal]; [by right|].
  destruct (chosen_move_Some u c m Hchosen) as (Hm & _).
  rewrite Hlegal in Hm. fold p in Hm.
  destruct (apply_legal_move _ _ _ _ Hm) as (i & src & _ & _ & Happ).
  pose proof (legal_move_extra _ _ _ _ Hm) as Hextra.
  apply lookup_lt_is_Some_2 in Hq as [q Hquiz].
  unfold handle_click, click_dest. rewrite Hst, Hchosen. fold p. rewrite Happ.
  set (ps' := set_pieces _ _ _). cbn [fst].
  destruct u as [[ps p0 g] st rv ms sel qi qc qp qo qf cf post].
  simpl in p, Hquiz. subst p. unfold after_move. cbn [the_game current_player
    game_positions game_rng set_game set_turn state roll_value
    quiz_question_index quiz_feedback_frames].
  rewrite Hquiz.
  assert (Hopp : opponent p0 ≠ p0) by by destruct p0.
  destruct (is_winner ps' p0) eqn:Hwin.
  { destruct (captured_idx m); eexists; (split; [reflexivity|]);
      (split; [reflexivity|]); simpl; congruence. }
  destruct (decide (newpos m ∈ ROSETTES)) as [Hros|Hros].
  - rewrite Hextra, (bool_decide_eq_true_2 _ Hros). cbn [andb].
    destruct (decide (newpos m ∈ QUIZ_TRIGGER_ROSETTES)) as [Hgate|Hgate].
    + rewrite (bool_decide_eq_true_2 _ Hgate).
      destruct (captured_idx m); eexists; (split; [reflexivity|]);
        (split; [reflexivity|]); intros _ evs u2 v Hrun;
        (apply (until_await_roll_quiz p0) in Hrun as (b & -> & ->);
         [|split_and!; [done|by eexists|simpl; auto]]);
        (split; [|by destruct b]);
        (split; [intros Hb; split; [done|]; right; by destruct b
                |intros [_ [?|[= ->]]]; done]).
    + rewrite (bool_decide_eq_false_2 _ Hgate).
      destruct (captured_idx m); eexists; (split; [reflexivity|]);
        (split; [reflexivity|]); intros _ evs u2 v Hrun;
        (apply until_await_roll_settled in Hrun as [-> ->];
         [|unfold settled; simpl; auto]); simpl;
        (split; [|done]); (split; [by auto|done]).
  - rewrite Hextra, (bool_decide_eq_false_2 _ Hros). cbn [andb].
    destruct (captured_idx m); eexists; (split; [reflexivity|]);
      (split; [reflexivity|]); intros _ evs u2 v Hrun;
      (apply until_await_roll_settled in Hrun as [-> ->];
       [|unfold settled; simpl; auto]); simpl;
      (split; [|done]); (split; [done|by intros [? _]]).
Qed.

(** After the move, some clicks and frames do lead to the next "await_roll":
    the capture animation runs out after 90 frames, the quiz waits for an
    answer, and its feedback runs out after 30 frames. *)
Lemma dest_click_reaches_roll (u u1 : ui) (c : click) (m : move) :
  state u = await_dest → chosen_move u c = Some m →
  handle_click u c = Return u1 →
  is_winner (game_positions (the_game u1)) (current_player (the_game u)) = false →
  ∃ (evs : list event) (u2 : ui) (v : option bool),
    until_await_roll evs u1 None = Some (u2, v).
Proof.
  intros Hst Hchosen Hclick Hwin.
  exists (replicate 90 Tick ++
          Clicked (Click false false None false (Some 0%nat) (game_rng (the_game u)))
          :: replicate 30 Tick).
  unfold handle_click, click_dest in Hclick. rewrite Hst, Hchosen in Hclick.
  destruct (apply_move _ _ m) as [ps' [e|e]]; [|done].
  destruct u as [[ps p0 g] st rv ms sel qi qc qp qo qf cf post].
  unfold after_move in Hclick. cbn [the_game current_player
    game_positions game_rng set_game set_turn state roll_value
    quiz_question_index quiz_feedback_frames] in Hclick, Hwin.
  destruct (is_winner ps' p0) eqn:Hw.
  { destruct (captured_idx m); injection Hclick as <-; simpl in Hwin; congruence. }
  destruct (e && _).
  { destruct (QUIZ_QUESTIONS !! qi); [|done].
    destruct (captured_idx m); injection Hclick as <-;
      do 2 eexists; vm_compute; reflexivity. }
  destruct e; destruct (captured_idx m); injection Hclick as <-;
    do 2 eexists; vm_compute; reflexivity.
Qed.

(** C2. In a state of the main loop where a destination is awaited, a click
    that picks the move [m] applies it. If the mover has not won, the loop can
    be brought to await the next roll, and at the first later moment it does,
    the player to move is the mover exactly when the landing slot is a rosette
    and either it is not a quiz rosette (slot 13) or it is one (slots 3 and 7)
    and the answer given to the quiz was the correct one. In every other case
    the other player is to move. *)
Theorem turn_handoff (u : ui) (c : click) (m : move) :
  ui_reachable u → state u = await_dest → chosen_move u c = Some m →
  let p := current_player (the_game u) in
  ∃ u1 : ui,
    handle_click u c = Return u1 ∧
    game_positions (the_game u1) = (apply_move (game_positions (the_game u)) p m).1 ∧
    (is_winner (game_positions (the_game u1)) p = false →
     (∃ (evs : list event) (u2 : ui) (v : option bool),
        until_await_roll evs u1 None = Some (u2, v)) ∧
     ∀ (evs : list event) (u2 : ui) (v : option bool),
       until_await_roll evs u1 None = Some (u2, v) →
       (current_player (the_game u2) = p ↔
        newpos m ∈ ROSETTES ∧
        (newpos m ∉ QUIZ_TRIGGER_ROSETTES ∨ v = Some true)) ∧
       (current_player (the_game u2) ≠ p →
        current_player (the_game u2) = opponent p)).
Proof.
  intros Hreach Hst Hchosen p.
  destruct (turn_handoff_law u c m Hreach Hst Hchosen) as (u1 & Hclick & Hps & Hlaw).
  exists u1. split; [done|]. split; [done|]. intros Hwin.
  split; [|by apply Hlaw].
  by apply (dest_click_reaches_roll u u1 c m).
Qed.

Lemma example_await_dest_reachable : ui_reachable example_await_dest.
Proof.
  apply (ui_reachable_step
           (Ui (Game init_positions White (Rng (λ _, 1%nat) 4)) await_select
               (Some 4) [Move None 3 true None] None 0 None None None 0 0 None)
           _ (Clicked example_click_rack)); [|reflexivity].
  apply (ui_reachable_step (init_ui (Rng (λ _, 1%nat) 0)) _
           (Clicked example_click_roll)); [constructor|].
  vm_compute. reflexivity.
Qed.

Lemma turn_handoff_witness :
  ∃ u1 : ui,
    handle_click example_await_dest example_click_slot3 = Return u1 ∧
    game_positions (the_game u1)
      = (apply_move init_positions White (Move None 3 true None)).1 ∧
    (is_winner (game_positions (the_game u1)) White = false →
     (∃ (evs : list event) (u2 : ui) (v : option bool),
        until_await_roll evs u1 None = Some (u2, v)) ∧
     ∀ (evs : list event) (u2 : ui) (v : option bool),
       until_await_roll evs u1 None = Some (u2, v) →
       (current_player (the_game u2) = White ↔
        3 ∈ ROSETTES ∧ (3 ∉ QUIZ_TRIGGER_ROSETTES ∨ v = Some true)) ∧
       (current_player (the_game u2) ≠ White →
        current_player (the_game u2) = opponent White)).
Proof.
  apply (turn_handoff example_await_dest example_click_slot3
           (Move None 3 true None)).
  - apply example_await_dest_reachable.
  - reflexivity.
  - reflexivity.
Defined.

(** The quiz answered correctly (30 frames of feedback follow): White rolls
    again. Answered wrongly: Black rolls. *)
Example quiz_correct_keeps_turn :
  ∃ u1 u2,
    handle_click example_await_dest example_click_slot3 = Return u1 ∧
    state u1 = await_quiz ∧
    until_await_roll (Clicked (example_click_answer 1) :: replicate 30 Tick) u1 None
      = Some (u2, Some true) ∧
    current_player (the_game u2) = White.
Proof. do 2 eexists. split_and!; [reflexivity|reflexivity|vm_compute; reflexivity|reflexivity]. Qed.

Example quiz_wrong_passes_turn :
  ∃ u1 u2,
    handle_click example_await_dest example_click_slot3 = Return u1 ∧
    until_await_roll (Clicked (example_click_answer 0) :: replicate 30 Tick) u1 None
      = Some (u2, Some false) ∧
    current_player (the_game u2) = Black.
Proof. do 2 eexists. split_and!; [reflexivity|vm_compute; reflexivity|reflexivity]. Qed.

(** ** Moves outside the enumerated list *)

(** [apply_move] checks nothing: a move that [legal_moves] does not return
    (for any roll of the dice) is applied like any other, without an error,
    and changes the board. *)
Lemma apply_move_unchecked_counterexample :
  let m := Move (Some 0%nat) 5 false None in
  (∀ roll, 0 ≤ roll ≤ 4 → m ∉ legal_moves init_positions White roll) ∧
  apply_move init_positions White m
    = (Positions [5; -1; -1; -1; -1; -1; -1] (replicate 7 (-1)), Return false) ∧
  (apply_move init_positions White m).1 ≠ init_positions.
Proof.
  intros m. split_and!.
  - intros roll Hroll Hin.
    assert (roll = 0 ∨ roll = 1 ∨ roll = 2 ∨ roll = 3 ∨ roll = 4)
      as [->|[->|[->|[->| ->]]]] by lia;
      vm_compute in Hin; by repeat (apply elem_of_cons in Hin as [[=]|Hin]);
      apply elem_of_nil in Hin.
  - reflexivity.
  - discriminate.
Qed.

(** C4, as the code has it. [apply_move] performs no legality check and knows
    no InvalidMove error; the check is in the destination handler of [main]. In a
    state of the main loop that awaits a destination, the stored move list is
    the one [legal_moves] returned for the current board and player; a click
    that picks a move picks it from that list and the handler applies exactly
    that move; a click that picks none applies nothing: the game (board,
    player to move, generator) and the move list are unchanged, no error is
    raised, and the loop returns to piece selection. *)
Theorem dest_click_applies_only_enumerated (u : ui) (c : click) :
  ui_reachable u → state u = await_dest →
  let ps := game_positions (the_game u) in
  let p := current_player (the_game u) in
  ∃ r, ui_legal_moves u = legal_moves ps p r ∧
  match chosen_move u c with
  | Some m =>
      m ∈ legal_moves ps p r ∧
      ∃ u', handle_click u c = Return u' ∧
            game_positions (the_game u') = (apply_move ps p m).1
  | None =>
      ∃ u', handle_click u c = Return u' ∧
            the_game u' = the_game u ∧
            ui_legal_moves u' = ui_legal_moves u ∧
            state u' = await_select
  end.
Proof.
  intros Hreach Hst ps p.
  destruct (ui_reachable_ok u Hreach) as (_ & _ & _ & Hl).
  destruct Hl as [r Hlegal]; [by right|]. fold ps p in Hlegal.
  exists r. split; [done|].
  destruct (chosen_move u c) as [m|] eqn:Hchosen.
  - destruct (chosen_move_Some u c m Hchosen) as (Hm & _).
    rewrite Hlegal in Hm. split; [done|].
    destruct (turn_handoff_applies u c m Hreach Hst Hchosen) as (u' & Hu' & Hps).
    by exists u'.
  - eexists. unfold handle_click, click_dest. rewrite Hst, Hchosen.
    split; [reflexivity|]. done.
Qed.

Lemma dest_click_applies_only_enumerated_witness :
  ∃ r, ui_legal_moves example_await_dest = legal_moves init_positions White r ∧
  ∃ u', handle_click example_await_dest example_click_rack = Return u' ∧
        the_game u' = the_game example_await_dest ∧
        ui_legal_moves u' = ui_legal_moves example_await_dest ∧
        state u' = await_select.
Proof.
  exact (dest_click_applies_only_enumerated example_await_dest example_click_rack
           example_await_dest_reachable eq_refl).
Defined.

(** * Further properties of the rules engine *)

Section applied_moves.

(** The piece a returned move moves: its index and position, where the roll
    takes it, and the board [apply_move] leaves. For an entry the piece is the
    first off-board one, which the roll takes from -1 to [roll - 1]. *)
Lemma legal_move_source (ps : positions) (p : player) (roll : Z) (m : move) :
  m ∈ legal_moves ps p roll →
  ∃ i src,
    pieces ps p !! i = Some src ∧ newpos m = src + roll ∧
    (piece_idx m = Some i ∧ on_track src ∨
     piece_idx m = None ∧ src = -1 ∧
       ∀ j, (j < i)%nat → pieces ps p !! j ≠ Some (-1)) ∧
    apply_move ps p m =
      (set_pieces (capture ps p (captured_idx m)) p
         (<[i := newpos m]> (pieces ps p)),
       Return (extra m)).
Proof.
  intros Hm.
  destruct (apply_legal_move _ _ _ _ Hm) as (i0 & src0 & Hi0 & Hsrc0 & Happ0).
  assert (Hcap : ∀ k, captured_idx m = Some k →
                      (k < length (pieces ps (opponent p)))%nat).
  { intros k Hk.
    apply legal_move_dest in Hm as [(_ & _ & Hc & _)|(_ & Hland & _)];
      [congruence|].
    rewrite Hk in Hland.
    apply landing_info_allowed in Hland as (_ & _ & _ & Hl & _).
    by apply lookup_lt_Some in Hl. }
  destruct Hsrc0 as [(Hpi & Hon & Hd)|[Hpi ->]].
  - exists i0, src0. split_and!; [done..| |done]. by left.
  - assert (Hoff : -1 ∈ pieces ps p) by by eapply list_elem_of_lookup_2.
    destruct (list_index_elem_of _ _ Hoff) as [i Hidx].
    pose proof Hidx as [Hi Hmin]%list_index_Return.
    exists i, (-1). split; [done|]. split.
    + apply legal_move_dest in Hm
        as [(_ & _ & _ & ? & ? & ? & _)|(_ & _ & _ & [(? & ? & ? & _)|(_ & _ & ? & _)])];
        [congruence..|lia].
    + split; [by right|]. apply apply_move_Return; [done|]. by rewrite Hpi.
Qed.

End applied_moves.

(** The piece a returned move captures. *)
Lemma legal_move_capture (ps : positions) (p : player) (roll : Z)
    (m : move) (k : nat) :
  m ∈ legal_moves ps p roll → captured_idx m = Some k →
  pieces ps (opponent p) !! k = Some (newpos m) ∧
  (∀ j, (j < k)%nat → pieces ps (opponent p) !! j ≠ Some (newpos m)) ∧
  newpos m ∈ CAPTURE_SQUARES ∧
  pieces (apply_move ps p m).1 (opponent p) !! k = Some (-1).
Proof.
  intros Hm Hk.
  destruct (legal_move_source _ _ _ _ Hm) as (i & src & _ & _ & _ & ->).
  apply legal_move_dest in Hm as [(_ & _ & Hc & _)|(_ & Hland & _)];
    [congruence|].
  rewrite Hk in Hland. apply landing_info_allowed in Hland as (_ & Hcs & _ & Hl & Hmin).
  split_and!; [done..|]. cbn [fst].
  rewrite pieces_set_pieces_other, pieces_capture_opponent, Hk.
  apply list_lookup_insert_Some. left. split_and!; [done..|].
  by apply lookup_lt_Some in Hl.
Qed.

(** X1. The capture reference of a returned move names the first opponent
    piece standing on the destination, the destination is a capture square,
    and after [apply_move] that piece is off-board (-1). *)
Theorem capture_reference_sound (ps : positions) (p : player) (roll : Z)
    (m : move) (k : nat) :
  m ∈ legal_moves ps p roll → captured_idx m = Some k →
  pieces ps (opponent p) !! k = Some (newpos m) ∧
  (∀ j, (j < k)%nat → pieces ps (opponent p) !! j ≠ Some (newpos m)) ∧
  newpos m ∈ CAPTURE_SQUARES ∧
  pieces (apply_move ps p m).1 (opponent p) !! k = Some (-1).
Proof. apply legal_move_capture. Qed.

Lemma capture_reference_sound_witness :
  let ps := Positions [1; -1; -1; -1; -1; -1; -1] [14; 5; -1; -1; -1; -1; -1] in
  let m := Move (Some 0%nat) 5 false (Some 1%nat) in
  m ∈ legal_moves ps White 4 ∧
  pieces (apply_move ps White m).1 Black !! 1%nat = Some (-1).
Proof.
  intros ps m.
  assert (Hm : m ∈ legal_moves ps White 4).
  { vm_compute. apply list_elem_of_here. }
  split; [exact Hm|].
  exact (proj2 (proj2 (proj2
           (capture_reference_sound ps White 4 m 1 Hm eq_refl)))).
Defined.

(** What [apply_move] changes when given a returned move. *)
Lemma legal_move_frame (ps : positions) (p : player) (roll : Z) (m : move) :
  m ∈ legal_moves ps p roll →
  let ps' := (apply_move ps p m).1 in
  (apply_move ps p m).2 = Return (extra m) ∧
  ∃ i : nat,
    (∀ j, piece_idx m = Some j → j = i) ∧
    pieces ps' p !! i = Some (newpos m) ∧
    (∀ j, j ≠ i → pieces ps' p !! j = pieces ps p !! j) ∧
    (∀ j, captured_idx m ≠ Some j →
          pieces ps' (opponent p) !! j = pieces ps (opponent p) !! j).
Proof.
  intros Hm ps'.
  destruct (legal_move_source _ _ _ _ Hm) as (i & src & Hi & _ & Hpi & Happ).
  unfold ps'. rewrite Happ. cbn [fst snd]. split; [done|].
  exists i. split_and!.
  - intros j Hj. destruct Hpi as [[? _]|[? _]]; congruence.
  - rewrite pieces_set_pieces. apply list_lookup_insert_Some. left.
    split_and!; [done..|]. by apply lookup_lt_Some in Hi.
  - intros j Hj. rewrite pieces_set_pieces.
    by apply list_lookup_insert_ne.
  - intros j Hj. rewrite pieces_set_pieces_other, pieces_capture_opponent.
    destruct (captured_idx m) as [k|]; [|done].
    apply list_lookup_insert_ne. congruence.
Qed.

(** X2. Applying a returned move never raises: it returns the move's bonus
    flag, puts the moved piece on the destination, and leaves every other
    piece of the mover and every opponent piece but the captured one where it
    was. *)
Theorem apply_legal_move_frame (ps : positions) (p : player) (roll : Z) (m : move) :
  m ∈ legal_moves ps p roll →
  let ps' := (apply_move ps p m).1 in
  (apply_move ps p m).2 = Return (extra m) ∧
  ∃ i : nat,
    (∀ j, piece_idx m = Some j → j = i) ∧
    pieces ps' p !! i = Some (newpos m) ∧
    (∀ j, j ≠ i → pieces ps' p !! j = pieces ps p !! j) ∧
    (∀ j, captured_idx m ≠ Some j →
          pieces ps' (opponent p) !! j = pieces ps (opponent p) !! j).
Proof. apply legal_move_frame. Qed.

Lemma apply_legal_move_frame_witness :
  let ps := Positions [1; -1; -1; -1; -1; -1; -1] [14; 5; -1; -1; -1; -1; -1] in
  let m := Move (Some 0%nat) 5 false (Some 1%nat) in
  m ∈ legal_moves ps White 4 ∧ (apply_move ps White m).2 = Return false.
Proof.
  intros ps m.
  assert (Hm : m ∈ legal_moves ps White 4).
  { vm_compute. apply list_elem_of_here. }
  split; [exact Hm|].
  exact (proj1 (apply_legal_move_frame ps White 4 m Hm)).
Defined.

(** X3. What [apply_move] does with a move whose references do not exist. A
    capture index past the opponent's pieces raises IndexError before anything
    is written. Otherwise the capture is written first, and then a piece index
    past the mover's pieces raises IndexError, and an entry while the mover has
    no off-board piece raises ValueError: in both cases the captured piece has
    already been sent back. *)
Theorem apply_move_raises (ps : positions) (p : player) (m : move) :
  (∀ k, captured_idx m = Some k →
        (length (pieces ps (opponent p)) ≤ k)%nat →
        apply_move ps p m = (ps, Raise IndexError)) ∧
  ((∀ k, captured_idx m = Some k → (k < length (pieces ps (opponent p)))%nat) →
   (∀ i, piece_idx m = Some i → (length (pieces ps p) ≤ i)%nat →
         apply_move ps p m = (capture ps p (captured_idx m), Raise IndexError)) ∧
   (piece_idx m = None → -1 ∉ pieces ps p →
    apply_move ps p m = (capture ps p (captured_idx m), Raise ValueError))).
Proof.
  unfold apply_move, list_store. split; [|intros Hcap; split].
  - intros k -> Hk. by rewrite decide_False by lia.
  - intros i -> Hi. destruct (captured_idx m) as [k|]; simpl.
    + rewrite decide_True by by apply Hcap.
      rewrite pieces_set_pieces_opponent. by rewrite decide_False by lia.
    + by rewrite decide_False by lia.
  - intros -> Hoff.
    assert (Hidx : list_index (pieces ps p) (-1) = Raise ValueError).
    { unfold list_index.
      destruct (list_find _ _) as [[i y]|] eqn:Hfind; [|done].
      apply list_find_Some in Hfind as (Hi & -> & _).
      exfalso. by eapply Hoff, list_elem_of_lookup_2. }
    destruct (captured_idx m) as [k|]; simpl.
    + rewrite decide_True by by apply Hcap.
      by rewrite pieces_set_pieces_opponent, Hidx.
    + by rewrite Hidx.
Qed.

Lemma apply_move_raises_witness :
  let ps := Positions [0; 1; 2; 3; 12; 13; 14] [5; -1; -1; -1; -1; -1; -1] in
  apply_move ps White (Move None 5 false (Some 0%nat))
  = (Positions [0; 1; 2; 3; 12; 13; 14] (replicate 7 (-1)), Raise ValueError).
Proof.
  intros ps.
  refine (proj2 (proj2 (apply_move_raises ps White (Move None 5 false (Some 0%nat))) _)
            eq_refl _).
  - intros k [= <-]. simpl. lia.
  - vm_compute. intros Hin.
    repeat (apply elem_of_cons in Hin as [[=]|Hin]). by apply elem_of_nil in Hin.
Defined.

(** X4. A borne-off piece stays borne off: whatever returned move is applied,
    by either player, a piece at 14 is still at 14 afterwards. *)
Theorem borne_off_is_final (ps : positions) (p q : player) (roll : Z)
    (m : move) (j : nat) :
  m ∈ legal_moves ps p roll → pieces ps q !! j = Some 14 →
  pieces (apply_move ps p m).1 q !! j = Some 14.
Proof.
  intros Hm Hj.
  destruct (legal_move_source _ _ _ _ Hm) as (i & src & Hi & _ & Hpi & ->).
  cbn [fst]. destruct (player_cases p q) as [->| ->].
  - rewrite pieces_set_pieces. rewrite list_lookup_insert_ne; [done|].
    intros ->. assert (src = 14) as -> by congruence.
    destruct Hpi as [[_ Hon]|(_ & ? & _)]; [|done].
    unfold on_track, TRACK_LEN in Hon. lia.
  - rewrite pieces_set_pieces_other, pieces_capture_opponent.
    destruct (captured_idx m) as [k|] eqn:Hk; [|done].
    rewrite list_lookup_insert_ne; [done|]. intros ->.
    apply legal_move_dest in Hm as [(_ & _ & Hc & _)|(Hlt & Hland & _)];
      [congruence|].
    rewrite Hk in Hland. apply landing_info_allowed in Hland as (_ & _ & _ & Hl & _).
    unfold TRACK_LEN in Hlt. assert (newpos m = 14) by congruence. lia.
Qed.

Lemma borne_off_is_final_witness :
  let ps := Positions [1; -1; -1; -1; -1; -1; -1] [14; 5; -1; -1; -1; -1; -1] in
  let m := Move (Some 0%nat) 5 false (Some 1%nat) in
  m ∈ legal_moves ps White 4 ∧
  pieces (apply_move ps White m).1 Black !! 0%nat = Some 14.
Proof.
  intros ps m.
  assert (Hm : m ∈ legal_moves ps White 4).
  { vm_compute. apply list_elem_of_here. }
  split; [exact Hm|].
  exact (borne_off_is_final ps White Black 4 m 0 Hm eq_refl).
Defined.

Lemma total_insert (l : list Z) : ∀ (i : nat) (x y : Z),
  l !! i = Some x → total (<[i := y]> l) = total l - x + y.
Proof.
  induction l as [|a l IH]; intros [|i] x y Hi; simplify_eq/=; [lia|].
  rewrite (IH i x y Hi). lia.
Qed.

(** X5. Every returned move advances the mover by exactly the roll: the sum
    of the mover's positions grows by [roll] (an entry goes from -1 to
    [roll - 1]); the opponent's sum is unchanged, or drops by the destination
    plus one when a piece is captured. *)
Theorem legal_move_advances_by_roll (ps : positions) (p : player) (roll : Z)
    (m : move) :
  m ∈ legal_moves ps p roll →
  let ps' := (apply_move ps p m).1 in
  total (pieces ps' p) = total (pieces ps p) + roll ∧
  total (pieces ps' (opponent p)) =
    total (pieces ps (opponent p))
    - (match captured_idx m with Some _ => newpos m + 1 | None => 0 end).
Proof.
  intros Hm ps'.
  destruct (legal_move_source _ _ _ _ Hm) as (i & src & Hi & Hd & _ & Happ).
  unfold ps'. rewrite Happ. cbn [fst]. split.
  - rewrite pieces_set_pieces, (total_insert _ i src) by done. lia.
  - rewrite pieces_set_pieces_other, pieces_capture_opponent.
    destruct (captured_idx m) as [k|] eqn:Hk; [|lia].
    destruct (legal_move_capture _ _ _ _ k Hm Hk) as (Hl & _).
    rewrite (total_insert _ k (newpos m)) by done. lia.
Qed.

Lemma legal_move_advances_by_roll_witness :
  let ps := Positions [1; -1; -1; -1; -1; -1; -1] [14; 5; -1; -1; -1; -1; -1] in
  let m := Move (Some 0%nat) 5 false (Some 1%nat) in
  m ∈ legal_moves ps White 4 ∧
  total (pieces (apply_move ps White m).1 White) = total (pieces ps White) + 4.
Proof.
  intros ps m.
  assert (Hm : m ∈ legal_moves ps White 4).
  { vm_compute. apply list_elem_of_here. }
  split; [exact Hm|].
  exact (proj1 (legal_move_advances_by_roll ps White 4 m Hm)).
Defined.

(** X6. [legal_moves] returns at most one move for each piece, and at most one
    entry: two returned moves with the same piece reference are the same
    move. *)
Theorem one_move_per_piece (ps : positions) (p : player) (roll : Z)
    (m1 m2 : move) :
  m1 ∈ legal_moves ps p roll → m2 ∈ legal_moves ps p roll →
  piece_idx m1 = piece_idx m2 → m1 = m2.
Proof.
  intros H1 H2 Hpi.
  assert (Hd : newpos m1 = newpos m2).
  { destruct (legal_move_source _ _ _ _ H1) as (i1 & s1 & Hi1 & Hd1 & Hs1 & _).
    destruct (legal_move_source _ _ _ _ H2) as (i2 & s2 & Hi2 & Hd2 & Hs2 & _).
    destruct Hs1 as [[Hp1 _]|(Hp1 & -> & _)], Hs2 as [[Hp2 _]|(Hp2 & -> & _)];
      congruence || lia. }
  apply legal_move_dest in H1 as [(Ha1 & He1 & Hc1 & _)|(Ha1 & Hl1 & He1 & _)];
    apply legal_move_dest in H2 as [(Ha2 & He2 & Hc2 & _)|(Ha2 & Hl2 & He2 & _)];
    try lia; destruct m1 as [pi1 d1 e1 c1], m2 as [pi2 d2 e2 c2];
    simpl in *; subst; [done|].
  f_equal. congruence.
Qed.

Lemma one_move_per_piece_witness :
  let ps := Positions [1; -1; -1; -1; -1; -1; -1] [14; 5; -1; -1; -1; -1; -1] in
  let m := Move (Some 0%nat) 5 false (Some 1%nat) in
  m ∈ legal_moves ps White 4 ∧ m = m.
Proof.
  intros ps m.
  assert (Hm : m ∈ legal_moves ps White 4).
  { vm_compute. apply list_elem_of_here. }
  split; [exact Hm|].
  exact (one_move_per_piece ps White 4 m m Hm Hm eq_refl).
Defined.

(** * Further properties of the main loop *)

Section ui_inv.

#[local] Arguments legal_moves : simpl never.
#[local] Arguments roll_dice : simpl never.
#[local] Arguments apply_move : simpl never.
#[local] Arguments is_winner : simpl never.

Lemma roll_dice_range (g : rng) : 0 ≤ (roll_dice g).1 ≤ 4.
Proof. unfold roll_dice. pose proof (sum_choices_range 4 g 0). lia. Qed.

Lemma piece_can_move_true (u : ui) (pi : option nat) :
  piece_can_move u pi = true →
  ∃ m, m ∈ ui_legal_moves u ∧ piece_idx m = pi.
Proof.
  unfold piece_can_move. rewrite existsb_exists.
  intros (m & Hin & Hpi). exists m. split; [by apply list_elem_of_In|].
  by apply bool_decide_eq_true in Hpi.
Qed.

Lemma init_ui_inv (g : rng) : ui_inv (init_ui g).
Proof.
  split; simpl; try done; try (intros [|]; done).
  - constructor.
  - by left.
Qed.

(** Closes one field of [ui_inv] after a step: its premise names a state the
    loop is not in, or the field is inherited from the state before. *)
Ltac inv_field :=
  simpl; try done; try (intros [|]; done);
  try (intros _; eauto 8; done); eauto 8.

Ltac inv_split :=
  split; unfold resume_state; inv_field.

Lemma tick_inv (u : ui) : ui_inv u → ui_inv (tick u).
Proof.
  destruct u as [gm st rv ms sel qi qc qp qo qf cf post].
  intros Hinv. destruct st; try exact Hinv.
  - destruct Hinv as [Hb _ _ _ Ho Hq Hr]. unfold resume_state in *. simpl in *.
    destruct post as [[]|]; simpl in *;
      try (exfalso; by destruct Hr as [?|[?|[?|?]]]);
      unfold tick; simpl; repeat (case_decide; simpl); try done; inv_split.
  - destruct Hinv as [Hb _ _ _ _ _ _].
    unfold tick; simpl; repeat (case_decide; simpl); inv_split.
Qed.

Lemma click_roll_inv (u : ui) :
  ui_inv u → state u = await_roll → ui_inv (click_roll u).
Proof.
  destruct u as [[ps p g] st rv ms sel qi qc qp qo qf cf post].
  intros [Hb _ _ _ _ _ _] Hst. simpl in Hst, Hb. subst st.
  unfold click_roll. cbn [the_game game_rng game_positions current_player].
  pose proof (roll_dice_range g) as Hrange.
  destruct (roll_dice g) as [r g']. cbn [fst] in Hrange.
  destruct (bool_decide (r = 0)) eqn:Hr0; cbn [orb].
  - apply bool_decide_eq_true in Hr0 as ->. inv_split.
  - apply bool_decide_eq_false in Hr0.
    destruct (bool_decide (legal_moves ps p r = [])) eqn:Hnil; cbn [orb].
    + apply bool_decide_eq_true in Hnil. inv_split.
    + apply bool_decide_eq_false in Hnil. inv_split.
      intros _. exists r. split_and!; try done; lia.
Qed.

Lemma click_select_inv (u : ui) (c : click) :
  ui_inv u → state u = await_select → ui_inv (click_select u c).
Proof.
  intros Hinv Hst. pose proof Hinv as [Hb Hm _ _ _ _ _].
  destruct Hm as (r & Hr & Hrv & Hlegal & Hne); [by left|].
  assert (Hsel : ∀ sel, (∃ m, m ∈ ui_legal_moves u ∧ piece_idx m = sel) →
            ui_inv (set_turn await_dest (roll_value u) (ui_legal_moves u) sel u)).
  { intros sel Hex. inv_split. }
  unfold click_select.
  destruct (on_square c) as [[pos owner]|];
    [destruct (owner_allows _ _);
     [destruct (_ !! pos) as [pi|];
      [destruct (piece_can_move u (Some pi)) eqn:Hcan|]|]|];
    destruct (on_rack c); try done;
    try (by apply Hsel, piece_can_move_true);
    (destruct (piece_can_move _ None) eqn:Hrack;
     [|done || by apply Hsel, piece_can_move_true]);
    apply piece_can_move_true in Hrack; by apply (Hsel None).
Qed.

Lemma after_move_inv (u u' : ui) (m : move) (r : Z) :
  ui_inv u → 0 ≤ r →
  m ∈ legal_moves (game_positions (the_game u)) (current_player (the_game u)) r →
  after_move u m
    (apply_move (game_positions (the_game u)) (current_player (the_game u)) m).1
    (extra m) = Return u' →
  ui_inv u'.
Proof.
  destruct u as [[ps p g] st rv ms sel qi qc qp qo qf cf post].
  intros [Hb _ _ _ _ _ _] Hr Hm. simpl in *.
  assert (Hb' : reachable (apply_move ps p m).1) by by apply (reachable_move ps p r).
  set (ps' := (apply_move ps p m).1) in *. clearbody ps'.
  unfold after_move; simpl.
  destruct (is_winner ps' p) eqn:Hwin.
  { destruct (captured_idx m); intros [= <-]; inv_split. }
  destruct (extra m && _).
  { destruct (QUIZ_QUESTIONS !! qi) as [q|] eqn:Hq; [|done].
    destruct (captured_idx m); intros [= <-]; inv_split;
      intros _; split_and!; eauto. }
  destruct (extra m); destruct (captured_idx m); intros [= <-]; inv_split.
Qed.

Lemma handle_click_inv (u u' : ui) (c : click) :
  ui_inv u → handle_click u c = Return u' → ui_inv u'.
Proof.
  intros Hinv. unfold handle_click. destruct (state u) eqn:Hst.
  - intros [= <-]. destruct (on_roll_btn c); [by apply click_roll_inv|done].
  - intros [= <-]. by apply click_select_inv.
  - pose proof Hinv as [Hb Hm _ _ _ _ _].
    destruct Hm as (r & Hr & Hrv & Hlegal & Hne); [by right|].
    unfold click_dest. destruct (chosen_move u c) as [m|] eqn:Hchosen.
    + destruct (chosen_move_Some u c m Hchosen) as (Hin & _).
      rewrite Hlegal in Hin.
      destruct (apply_legal_move _ _ _ _ Hin) as (i & src & _ & _ & Happ).
      intros Hafter. apply (after_move_inv u u' m r); [done|lia|done|].
      by rewrite Happ in Hafter |- *.
    + intros [= <-]. destruct u. simpl in *. subst. inv_split.
  - intros [= <-]. destruct (on_cont_btn c); [|done].
    destruct Hinv as [Hb _ _ _ _ _ _]. destruct u as [[ps p g] ?]. simpl in *.
    subst. unfold click_continue. inv_split.
  - intros [= <-]. unfold click_quiz.
    destruct (quiz_current u) eqn:Hqc; [|done].
    destruct (on_answer c); [|done].
    destruct Hinv as [Hb _ _ _ _ _ _].
    destruct u as [[ps p g] st rv ms sel qi qc qp qo qf cf post]. simpl in *.
    subst. destruct qp; [destruct (bool_decide _)|]; inv_split.
  - intros [= <-]. destruct (on_roll_btn c) eqn:Hroll.
    + unfold click_game_over. rewrite Hroll. destruct u. simpl in *.
      inv_split. constructor.
    + unfold click_game_over. by rewrite Hroll.
  - by intros [= <-].
  - by intros [= <-].
Qed.

Lemma ui_reachable_inv (u : ui) : ui_reachable u → ui_inv u.
Proof.
  induction 1 as [g|u u' e _ IH Hstep].
  - apply init_ui_inv.
  - destruct e as [c|]; simpl in Hstep.
    + by apply (handle_click_inv u u' c).
    + injection Hstep as <-. by apply tick_inv.
Qed.

End ui_inv.

(** X7. The main loop only ever changes the board by applying a move that
    [legal_moves] returned for a roll of the dice, or by starting a new game:
    the board of every state of the loop is reachable in the sense of the rules
    engine, so it has seven pieces a side, positions in [-1, 14], no stacking
    on the track and no shared slot held by both players. *)
Theorem main_loop_board_ok (u : ui) :
  ui_reachable u →
  reachable (game_positions (the_game u)) ∧ board_ok (game_positions (the_game u)).
Proof.
  intros Hreach%ui_reachable_inv. destruct Hreach as [Hb _ _ _ _ _ _].
  split; [done|]. by apply reachable_ok.
Qed.

Lemma main_loop_board_ok_witness :
  reachable (game_positions (the_game example_await_dest)) ∧
  board_ok (game_positions (the_game example_await_dest)).
Proof.
  exact (main_loop_board_ok example_await_dest example_await_dest_reachable).
Defined.

(** X8. No handler of the main loop raises: in every state of the loop, any
    click and any end of frame is handled and leaves a next state. In
    particular [apply_move] never fails on the move the destination handler
    picks, and the quiz index always names a question. *)
Theorem main_loop_never_raises (u : ui) (e : event) :
  ui_reachable u → ∃ u' : ui, step u e = Return u'.
Proof.
  intros Hreach. destruct e as [c|]; [|by eexists].
  simpl. unfold handle_click. destruct (state u) eqn:Hst; try by eexists.
  unfold click_dest. destruct (chosen_move u c) as [m|] eqn:Hchosen; [|by eexists].
  destruct (turn_handoff_applies u c m Hreach Hst Hchosen) as (u' & Hu' & _).
  exists u'. revert Hu'. unfold handle_click, click_dest. by rewrite Hst, Hchosen.
Qed.

Lemma main_loop_never_raises_witness :
  ∃ u' : ui, step example_await_dest (Clicked example_click_slot3) = Return u'.
Proof.
  exact (main_loop_never_raises example_await_dest (Clicked example_click_slot3)
           example_await_dest_reachable).
Defined.

(** X9. What the loop holds while a turn is played. While a piece or a
    destination is being selected, the roll is in 1..4 and the stored move list
    is the non-empty list [legal_moves] returned for the current board, player
    and roll; a destination is only awaited for a piece (or the entry) that has
    a move in that list; and Continue is only awaited when [legal_moves]
    returns nothing for the roll, which is in 0..4. *)
Theorem turn_states (u : ui) :
  ui_reachable u →
  let ps := game_positions (the_game u) in
  let p := current_player (the_game u) in
  (state u = await_select ∨ state u = await_dest →
   ∃ r, 1 ≤ r ≤ 4 ∧ roll_value u = Some r ∧
        ui_legal_moves u = legal_moves ps p r ∧ ui_legal_moves u ≠ []) ∧
  (state u = await_dest →
   ∃ m, m ∈ ui_legal_moves u ∧ piece_idx m = selected_piece u) ∧
  (state u = await_continue →
   ∃ r, 0 ≤ r ≤ 4 ∧ roll_value u = Some r ∧ legal_moves ps p r = []).
Proof.
  intros Hreach%ui_reachable_inv ps p. destruct Hreach as [_ Hm Hs Hc _ _ _].
  done.
Qed.

Lemma turn_states_witness :
  ∃ m, m ∈ ui_legal_moves example_await_dest ∧
       piece_idx m = selected_piece example_await_dest.
Proof.
  exact (proj1 (proj2 (turn_states example_await_dest example_await_dest_reachable))
           eq_refl).
Defined.

(** X10. The loop is in "game_over" (or about to resume into it after the
    capture animation) only when the player to move has all pieces at 14. *)
Theorem game_over_has_winner (u : ui) :
  ui_reachable u → resume_state u = game_over →
  is_winner (game_positions (the_game u)) (current_player (the_game u)) = true.
Proof.
  intros Hreach%ui_reachable_inv. by destruct Hreach as [_ _ _ _ Ho _ _].
Qed.

(** X11. While a quiz is pending (or about to open after the capture
    animation), it is asked of the player to move, the question is the entry
    of [QUIZ_QUESTIONS] at the current quiz index, and the option counted as
    correct is that question's. *)
Theorem quiz_pending_question (u : ui) :
  ui_reachable u → resume_state u = await_quiz →
  quiz_player u = Some (current_player (the_game u)) ∧
  is_Some (quiz_current u) ∧
  quiz_current u = QUIZ_QUESTIONS !! quiz_question_index u ∧
  quiz_correct_option u = quiz_current u.
Proof.
  intros Hreach%ui_reachable_inv. by destruct Hreach as [_ _ _ _ _ Hq _].
Qed.

Lemma run_reachable (evs : list event) : ∀ u u' : ui,
  ui_reachable u → run evs u = Return u' → ui_reachable u'.
Proof.
  induction evs as [|e evs IH]; intros u u' Hreach; simpl.
  - by intros [= <-].
  - destruct (step u e) as [u1|x] eqn:Hstep; [|done].
    apply IH. by apply (ui_reachable_step u u1 e).
Qed.

(** The example game runs without an exception and ends with White having
    borne off all seven pieces. *)
Lemma example_game_runs :
  run example_game (init_ui (Rng example_draw 0)) = Return example_game_over ∧
  state example_game_over = game_over ∧
  current_player (the_game example_game_over) = White ∧
  quiz_question_index example_game_over = 0%nat ∧
  game_positions (the_game example_game_over)
  = Positions (replicate 7 14) (replicate 7 (-1)).
Proof.
  assert (Hrun : ∃ u, run example_game (init_ui (Rng example_draw 0)) = Return u).
  { eexists. vm_compute. reflexivity. }
  destruct Hrun as [u Hu]. unfold example_game_over. rewrite Hu.
  split; [done|]. vm_compute in Hu. injection Hu as <-. done.
Qed.

Lemma example_game_over_reachable : ui_reachable example_game_over.
Proof.
  apply (run_reachable example_game (init_ui (Rng example_draw 0)));
    [constructor|apply example_game_runs].
Qed.

Lemma example_await_quiz_reachable : ui_reachable example_await_quiz.
Proof.
  apply (ui_reachable_step example_await_dest _ (Clicked example_click_slot3));
    [apply example_await_dest_reachable|reflexivity].
Qed.

Lemma game_over_has_winner_witness :
  is_winner (game_positions (the_game example_game_over))
    (current_player (the_game example_game_over)) = true.
Proof.
  refine (game_over_has_winner example_game_over example_game_over_reachable _).
  unfold resume_state.
  rewrite (proj1 (proj2 example_game_runs)). reflexivity.
Defined.

Lemma quiz_pending_question_witness :
  quiz_player example_await_quiz
    = Some (current_player (the_game example_await_quiz)) ∧
  is_Some (quiz_current example_await_quiz) ∧
  quiz_current example_await_quiz
    = QUIZ_QUESTIONS !! quiz_question_index example_await_quiz ∧
  quiz_correct_option example_await_quiz = quiz_current example_await_quiz.
Proof.
  exact (quiz_pending_question example_await_quiz example_await_quiz_reachable
           eq_refl).
Defined.

Section first_win.

#[local] Arguments legal_moves : simpl never.
#[local] Arguments roll_dice : simpl never.
#[local] Arguments apply_move : simpl never.
#[local] Arguments is_winner : simpl never.

(** A move cannot make the player who does not move a winner. *)
Lemma legal_move_opponent_not_winner (ps : positions) (p : player) (roll : Z)
    (m : move) :
  m ∈ legal_moves ps p roll → is_winner ps (opponent p) = false →
  is_winner (apply_move ps p m).1 (opponent p) = false.
Proof.
  intros Hm Hnot.
  destruct (is_winner (apply_move ps p m).1 (opponent p)) eqn:Hwin; [|done].
  exfalso. rewrite is_winner_true in Hwin.
  destruct (captured_idx m) as [k|] eqn:Hk.
  - destruct (legal_move_capture _ _ _ _ k Hm Hk) as (_ & _ & _ & Hback).
    by apply Hwin in Hback.
  - apply not_true_iff_false in Hnot. apply Hnot, is_winner_true.
    intros i x Hi. apply (Hwin i).
    destruct (legal_move_frame _ _ _ _ Hm) as (_ & _ & _ & _ & _ & Hopp).
    rewrite Hopp; [done|]. by rewrite Hk.
Qed.

Lemma no_winner_step (u u' : ui) (e : event) :
  ui_inv u → step u e = Return u' →
  (resume_state u ≠ game_over →
   ∀ q, is_winner (game_positions (the_game u)) q = false) →
  resume_state u' ≠ game_over →
  ∀ q, is_winner (game_positions (the_game u')) q = false.
Proof.
  intros Hinv Hstep Hno.
  destruct e as [c|]; simpl in Hstep.
  - unfold handle_click in Hstep. destruct (state u) eqn:Hst.
    + injection Hstep as <-. destruct (on_roll_btn c); [|done].
      intros _. unfold click_roll. destruct (roll_dice _) as [r g'].
      assert (Hu : resume_state u ≠ game_over)
        by (unfold resume_state; rewrite Hst; by case_decide).
      specialize (Hno Hu). by destruct (_ || _).
    + injection Hstep as <-.
      assert (Hu : resume_state u ≠ game_over)
        by (unfold resume_state; rewrite Hst; by case_decide).
      specialize (Hno Hu). intros _. unfold click_select.
      destruct (on_square c) as [[pos owner]|];
        [destruct (owner_allows _ _);
         [destruct (_ !! pos) as [pi|];
          [destruct (piece_can_move u (Some pi))|]|]|];
        destruct (on_rack c); try done;
        destruct (piece_can_move _ None); done.
    + assert (Hu : resume_state u ≠ game_over)
        by (unfold resume_state; rewrite Hst; by case_decide).
      specialize (Hno Hu).
      destruct (inv_moves u Hinv) as (r & Hr & _ & Hlegal & _); [by right|].
      unfold click_dest in Hstep.
      destruct (chosen_move u c) as [m|] eqn:Hchosen.
      2:{ injection Hstep as <-. done. }
      destruct (chosen_move_Some u c m Hchosen) as (Hin & _).
      rewrite Hlegal in Hin.
      pose proof (legal_move_opponent_not_winner _ _ _ _ Hin (Hno _)) as Hopp.
      destruct (apply_legal_move _ _ _ _ Hin) as (i & src & _ & _ & Happ).
      rewrite Happ in Hstep, Hopp. cbn [fst] in Hopp.
      set (ps' := set_pieces _ _ _) in *. clearbody ps'.
      destruct u as [[ps p g] st rv ms sel qi qc qp qo qf cf post].
      unfold after_move in Hstep. simpl in Hstep, Hopp.
      destruct (is_winner ps' p) eqn:Hwin.
      { destruct (captured_idx m); injection Hstep as <-;
          unfold resume_state; simpl; done. }
      assert (Hall : ∀ q, is_winner ps' q = false).
      { intros q. by destruct (player_cases p q) as [->| ->]. }
      destruct (extra m && _);
        [destruct (QUIZ_QUESTIONS !! qi); [|done]|destruct (extra m)];
        destruct (captured_idx m); injection Hstep as <-; intros _; exact Hall.
    + injection Hstep as <-.
      assert (Hu : resume_state u ≠ game_over)
        by (unfold resume_state; rewrite Hst; by case_decide).
      specialize (Hno Hu). by destruct (on_cont_btn c).
    + injection Hstep as <-.
      assert (Hu : resume_state u ≠ game_over)
        by (unfold resume_state; rewrite Hst; by case_decide).
      specialize (Hno Hu). intros _. unfold click_quiz.
      destruct (quiz_current u); [|done]. destruct (on_answer c); [|done].
      by destruct (quiz_player u); [destruct (bool_decide _)|].
    + injection Hstep as <-. unfold click_game_over.
      destruct (on_roll_btn c).
      * intros _ q. by destruct q.
      * unfold resume_state. rewrite Hst. by case_decide.
    + by injection Hstep as <-.
    + by injection Hstep as <-.
  - injection Hstep as <-.
    destruct u as [gm st rv ms sel qi qc qp qo qf cf post].
    pose proof (inv_resume _ Hinv) as Hr. revert Hno Hr.
    unfold resume_state. simpl.
    destruct st; try (by intros Hno _ _; apply Hno);
      unfold tick; simpl; repeat (case_decide; simpl); try done;
      try (by intros Hno _ _; apply Hno).
    all: destruct post as [[]|]; simpl;
      try (by intros Hno _ _; apply Hno); try done;
      try (by intros _ [?|[?|[?|?]]]).
Qed.

(** X12. Play stops at the first win: as long as the loop is not in
    "game_over" (nor resuming into it after the capture animation), neither
    player has all pieces at 14. *)
Theorem no_winner_before_game_over (u : ui) :
  ui_reachable u → resume_state u ≠ game_over →
  ∀ q, is_winner (game_positions (the_game u)) q = false.
Proof.
  induction 1 as [g|u u' e Hreach IH Hstep].
  - intros _ q. by destruct q.
  - apply (no_winner_step u u' e); [by apply ui_reachable_inv|done..].
Qed.

End first_win.

Lemma no_winner_before_game_over_witness :
  is_winner (game_positions (the_game example_await_quiz)) White = false ∧
  is_winner (game_positions (the_game example_await_quiz)) Black = false.
Proof.
  assert (Hno : resume_state example_await_quiz ≠ game_over) by discriminate.
  split.
  - exact (no_winner_before_game_over example_await_quiz
             example_await_quiz_reachable Hno White).
  - exact (no_winner_before_game_over example_await_quiz
             example_await_quiz_reachable Hno Black).
Defined.

(** * Animation countdowns *)

Section countdowns.

#[local] Arguments legal_moves : simpl never.
#[local] Arguments apply_move : simpl never.
#[local] Arguments is_winner : simpl never.

Lemma ticks_capture_anim (n : nat) : ∀ (u : ui) (s : ui_state),
  state u = capture_anim → capture_anim_frames u = Z.of_nat (S n) →
  post_capture_state u = Some s → s ≠ quiz_feedback →
  (∀ k, (k ≤ n)%nat →
        state (ticks k u) = capture_anim ∧ the_game (ticks k u) = the_game u) ∧
  state (ticks (S n) u) = s ∧ the_game (ticks (S n) u) = the_game u.
Proof.
  induction n as [|n IH]; intros u s Hst Hfr Hpost Hs;
    destruct u as [gm st rv ms sel qi qc qp qo qf cf post];
    cbn [state capture_anim_frames post_capture_state the_game] in *;
    subst st post.
  - split.
    + intros k Hk. assert (k = 0%nat) as -> by lia. done.
    + cbn [ticks]. unfold tick; simpl.
      destruct (decide (cf > 0)); [|lia].
      destruct (decide (cf - 1 ≤ 0)); [|lia]. simpl. by destruct s.
  - assert (Htick : tick (Ui gm capture_anim rv ms sel qi qc qp qo qf cf (Some s))
             = Ui gm capture_anim rv ms sel qi qc qp qo qf (cf - 1) (Some s)).
    { unfold tick; simpl. destruct (decide (cf > 0)); [|lia].
      by destruct (decide (cf - 1 ≤ 0)); [lia|]. }
    destruct (IH (Ui gm capture_anim rv ms sel qi qc qp qo qf (cf - 1) (Some s)) s)
      as (Hk & Hend); [done|simpl; lia|done..|].
    split.
    + intros [|k] Hle; [done|]. cbn [ticks]. rewrite Htick. apply Hk. lia.
    + change (ticks (S (S n)) ?x) with (ticks (S n) (tick x)).
      rewrite Htick. exact Hend.
Qed.

Lemma ticks_quiz_feedback (n : nat) : ∀ u : ui,
  state u = quiz_feedback → quiz_feedback_frames u = Z.of_nat (S n) →
  (∀ k, (k ≤ n)%nat →
        state (ticks k u) = quiz_feedback ∧ the_game (ticks k u) = the_game u) ∧
  state (ticks (S n) u) = await_roll ∧ the_game (ticks (S n) u) = the_game u ∧
  quiz_current (ticks (S n) u) = None ∧ quiz_player (ticks (S n) u) = None ∧
  quiz_correct_option (ticks (S n) u) = None ∧
  quiz_question_index (ticks (S n) u) = quiz_question_index u.
Proof.
  induction n as [|n IH]; intros u Hst Hfr;
    destruct u as [gm st rv ms sel qi qc qp qo qf cf post];
    cbn [state quiz_feedback_frames the_game quiz_question_index] in *;
    subst st.
  - split.
    + intros k Hk. assert (k = 0%nat) as -> by lia. done.
    + cbn [ticks]. unfold tick; simpl.
      destruct (decide (qf > 0)); [|lia].
      by destruct (decide (qf - 1 ≤ 0)); [|lia].
  - assert (Htick : tick (Ui gm quiz_feedback rv ms sel qi qc qp qo qf cf post)
             = Ui gm quiz_feedback rv ms sel qi qc qp qo (qf - 1) cf post).
    { unfold tick; simpl. destruct (decide (qf > 0)); [|lia].
      by destruct (decide (qf - 1 ≤ 0)); [lia|]. }
    destruct (IH (Ui gm quiz_feedback rv ms sel qi qc qp qo (qf - 1) cf post))
      as (Hk & Hend); [done|simpl; lia|].
    split.
    + intros [|k] Hle; [done|]. cbn [ticks]. rewrite Htick. apply Hk. lia.
    + change (ticks (S (S n)) ?x) with (ticks (S n) (tick x)).
      rewrite Htick. exact Hend.
Qed.

End countdowns.

(** X13. A capturing move starts the capture animation, which lasts exactly
    90 frames: for the first 89 ends of frame after the move the loop stays in
    "capture_anim", ignores every click and leaves the game untouched; the
    90th resumes into the state the move had decided (next roll, quiz or game
    over), still with the same game. *)
Theorem capture_animation_lasts_90 (u u1 : ui) (c : click) (m : move) :
  state u = await_dest → chosen_move u c = Some m → is_Some (captured_idx m) →
  handle_click u c = Return u1 →
  (∀ k, (k < 90)%nat →
        state (ticks k u1) = capture_anim ∧
        the_game (ticks k u1) = the_game u1 ∧
        ∀ c', handle_click (ticks k u1) c' = Return (ticks k u1)) ∧
  (state (ticks 90 u1) = await_roll ∨ state (ticks 90 u1) = await_quiz ∨
   state (ticks 90 u1) = game_over) ∧
  the_game (ticks 90 u1) = the_game u1.
Proof.
  intros Hst Hchosen [k0 Hcap] Hclick.
  assert (Hu1 : state u1 = capture_anim ∧
                capture_anim_frames u1 = Z.of_nat 90 ∧
                ∃ s, post_capture_state u1 = Some s ∧
                     (s = await_roll ∨ s = await_quiz ∨ s = game_over)).
  { revert Hclick. unfold handle_click, click_dest. rewrite Hst, Hchosen.
    destruct (apply_move _ _ m) as [ps' [e|x]]; [|done].
    unfold after_move. rewrite Hcap.
    destruct (is_winner ps' _);
      [|destruct (e && _);
        [destruct (QUIZ_QUESTIONS !! _); [|done]|destruct e]];
      intros [= <-]; (split; [done|]); (split; [done|]);
      eexists; (split; [reflexivity|]); auto. }
  destruct Hu1 as (Hs1 & Hf1 & s & Hpost & Hs).
  destruct (ticks_capture_anim 89 u1 s Hs1 Hf1 Hpost) as (Hk & Hend & Hgame).
  { by destruct Hs as [->|[->| ->]]. }
  split_and!.
  - intros k Hlt. destruct (Hk k) as [Hsk Hgk]; [lia|].
    split_and!; [done..|]. intros c'. unfold handle_click. by rewrite Hsk.
  - rewrite Hend. tauto.
  - done.
Qed.

Lemma capture_animation_lasts_90_witness :
  ∃ u1, handle_click example_capture_dest (example_click_square 5 None) = Return u1 ∧
        state (ticks 89 u1) = capture_anim ∧
        (state (ticks 90 u1) = await_roll ∨ state (ticks 90 u1) = await_quiz ∨
         state (ticks 90 u1) = game_over).
Proof.
  eexists. split; [reflexivity|].
  destruct (capture_animation_lasts_90 example_capture_dest _
              (example_click_square 5 None) (Move (Some 0%nat) 5 false (Some 1%nat))
              eq_refl eq_refl (mk_is_Some _ _ eq_refl) eq_refl) as (Hk & Hend & _).
  split; [|exact Hend]. apply (Hk 89%nat). lia.
Defined.

(** X14. Answering the pending quiz: the player who landed on the rosette
    keeps the turn if the clicked option is the correct one and loses it to
    the opponent otherwise; the board is untouched; the quiz index moves on by
    one, wrapping after the last question; the feedback then lasts exactly 30
    frames, after which the loop awaits a roll with the quiz closed:
    [quiz_current], [quiz_player] and [quiz_correct_option] are all [None]
    and the quiz index is the advanced one. *)
Theorem quiz_answer_feedback (u : ui) (c : click) (idx : nat) :
  ui_reachable u → state u = await_quiz → on_answer c = Some idx →
  let p := current_player (the_game u) in
  ∃ u1 : ui,
    handle_click u c = Return u1 ∧
    state u1 = quiz_feedback ∧
    current_player (the_game u1) =
      (if bool_decide (Some idx = quiz_correct_option u) then p else opponent p) ∧
    game_positions (the_game u1) = game_positions (the_game u) ∧
    quiz_question_index u1
      = ((quiz_question_index u + 1) `mod` length QUIZ_QUESTIONS)%nat ∧
    (∀ k, (k < 30)%nat → state (ticks k u1) = quiz_feedback) ∧
    state (ticks 30 u1) = await_roll ∧
    the_game (ticks 30 u1) = the_game u1 ∧
    quiz_current (ticks 30 u1) = None ∧
    quiz_player (ticks 30 u1) = None ∧
    quiz_correct_option (ticks 30 u1) = None ∧
    quiz_question_index (ticks 30 u1) = quiz_question_index u1.
Proof.
  intros Hreach Hst Hans p.
  destruct (inv_quiz u (ui_reachable_inv u Hreach)) as (Hqp & [q Hqc] & _).
  { unfold resume_state. rewrite Hst. by case_decide. }
  eexists. unfold handle_click, click_quiz. rewrite Hst, Hqc, Hans, Hqp.
  split; [reflexivity|].
  set (next := ((quiz_question_index u + 1) `mod` length QUIZ_QUESTIONS)%nat).
  set (u1 := set_state quiz_feedback _).
  assert (Hs1 : state u1 = quiz_feedback) by done.
  assert (Hf1 : quiz_feedback_frames u1 = Z.of_nat 30) by done.
  destruct (ticks_quiz_feedback 29 u1 Hs1 Hf1)
    as (Hk & Hend & Hgame & Hcur & Hpl & Hopt & Hidx).
  split; [exact Hs1|]. split; [unfold u1; by destruct (bool_decide _)|].
  split; [unfold u1; by destruct (bool_decide _)|].
  split; [reflexivity|].
  split; [intros k Hlt; apply (Hk k); lia|].
  split; [exact Hend|]. split; [exact Hgame|]. split; [exact Hcur|].
  split; [exact Hpl|]. split; [exact Hopt|exact Hidx].
Qed.

Lemma quiz_answer_feedback_witness :
  ∃ u1 : ui,
    handle_click example_await_quiz (example_click_answer 1) = Return u1 ∧
    state u1 = quiz_feedback ∧
    current_player (the_game u1) = White ∧
    state (ticks 30 u1) = await_roll ∧
    quiz_current (ticks 30 u1) = None ∧
    quiz_player (ticks 30 u1) = None ∧
    quiz_correct_option (ticks 30 u1) = None.
Proof.
  destruct (quiz_answer_feedback example_await_quiz (example_click_answer 1) 1
              example_await_quiz_reachable eq_refl eq_refl)
    as (u1 & Hclick & Hst & Hp & _ & _ & _ & Hroll & _ & Hcur & Hpl & Hopt & _).
  exists u1.
  split_and!; [exact Hclick|exact Hst|exact Hp|exact Hroll|exact Hcur
              |exact Hpl|exact Hopt].
Defined.

(** * Board layout *)

Section layout.

Lemma make_board_squares_eq :
  make_board_squares =
  [MkSquareDef (Rect 210 140 72 72) 4 None;
   MkSquareDef (Rect 290 140 72 72) 5 None;
   MkSquareDef (Rect 370 140 72 72) 6 None;
   MkSquareDef (Rect 450 140 72 72) 7 None;
   MkSquareDef (Rect 530 140 72 72) 8 None;
   MkSquareDef (Rect 610 140 72 72) 9 None;
   MkSquareDef (Rect 690 140 72 72) 10 None;
   MkSquareDef (Rect 770 140 72 72) 11 None;
   MkSquareDef (Rect 210 60 72 72) 0 (Some White);
   MkSquareDef (Rect 290 60 72 72) 1 (Some White);
   MkSquareDef (Rect 370 60 72 72) 2 (Some White);
   MkSquareDef (Rect 450 60 72 72) 3 (Some White);
   MkSquareDef (Rect 690 60 72 72) 12 (Some White);
   MkSquareDef (Rect 770 60 72 72) 13 (Some White);
   MkSquareDef (Rect 210 220 72 72) 0 (Some Black);
   MkSquareDef (Rect 290 220 72 72) 1 (Some Black);
   MkSquareDef (Rect 370 220 72 72) 2 (Some Black);
   MkSquareDef (Rect 450 220 72 72) 3 (Some Black);
   MkSquareDef (Rect 690 220 72 72) 12 (Some Black);
   MkSquareDef (Rect 770 220 72 72) 13 (Some Black);
   MkSquareDef (Rect 850 60 72 72) 14 (Some White);
   MkSquareDef (Rect 850 220 72 72) 14 (Some Black)].
Proof. reflexivity. Qed.

(** No point of the window is inside two squares. *)
Lemma squares_disjoint (s s' : SquareDef) (mx my : Z) :
  s ∈ make_board_squares → s' ∈ make_board_squares →
  collidepoint (sq_rect s) mx my → collidepoint (sq_rect s') mx my → s = s'.
Proof.
  rewrite make_board_squares_eq. intros Hs Hs'.
  repeat (apply elem_of_cons in Hs as [->|Hs]); [..|by apply elem_of_nil in Hs];
    repeat (apply elem_of_cons in Hs' as [->|Hs']);
    try (by apply elem_of_nil in Hs');
    unfold collidepoint; cbn [sq_rect rect_x rect_y rect_w rect_h];
    intros ? ?; first [reflexivity | exfalso; lia].
Qed.

End layout.

(** X15. The hit test finds the square under the mouse: the squares of the
    board do not overlap, so for a point inside the rectangle of a square the
    hit test returns that square's position and owner; for a point inside no
    square it returns [(None, None)]. *)
Theorem hit_test_finds_square (mx my : Z) :
  (∀ s, s ∈ make_board_squares → collidepoint (sq_rect s) mx my →
        rect_to_logical_pos_and_owner mx my = (Some (sq_pos s), sq_owner s)) ∧
  ((∀ s, s ∈ make_board_squares → ¬ collidepoint (sq_rect s) mx my) →
   rect_to_logical_pos_and_owner mx my = (None, None)).
Proof.
  unfold rect_to_logical_pos_and_owner. split.
  - intros s Hs Hhit.
    destruct (list_find _ make_board_squares) as [[i s']|] eqn:Hfind.
    + apply list_find_Some in Hfind as (Hi & Hhit' & _).
      apply list_elem_of_lookup_2 in Hi.
      by rewrite (squares_disjoint s s' mx my Hs Hi Hhit Hhit').
    + exfalso. apply list_find_None in Hfind.
      by apply (proj1 (Forall_forall _ _) Hfind s).
  - intros Hnone.
    destruct (list_find _ make_board_squares) as [[i s']|] eqn:Hfind; [|done].
    exfalso. apply list_find_Some in Hfind as (Hi & Hhit' & _).
    apply list_elem_of_lookup_2 in Hi. by apply (Hnone s').
Qed.

Lemma hit_test_finds_square_witness :
  rect_to_logical_pos_and_owner 460 150 = (Some 7, None).
Proof.
  refine (proj1 (hit_test_finds_square 460 150)
            (MkSquareDef (Rect 450 140 72 72) 7 None) _ _).
  - rewrite make_board_squares_eq. do 3 apply list_elem_of_further.
    apply list_elem_of_here.
  - unfold collidepoint. simpl. lia.
Defined.

(** X16. The squares of a track position: a shared position 4..11 has exactly
    one square, owned by nobody; a private position 0..3 or 12..13 and the
    bear-off position 14 have exactly two, White's and Black's; any other
    position has none. *)
Theorem squares_for_pos_owners (pos : Z) :
  sq_owner <$> squares_for_pos pos =
    if decide (4 ≤ pos ≤ 11) then [None]
    else if decide (0 ≤ pos ≤ 3 ∨ 12 ≤ pos ≤ 14) then [Some White; Some Black]
    else [].
Proof.
  unfold squares_for_pos. rewrite make_board_squares_eq.
  assert (pos = 0 ∨ pos = 1 ∨ pos = 2 ∨ pos = 3 ∨ pos = 4 ∨ pos = 5 ∨ pos = 6 ∨
          pos = 7 ∨ pos = 8 ∨ pos = 9 ∨ pos = 10 ∨ pos = 11 ∨ pos = 12 ∨
          pos = 13 ∨ pos = 14 ∨ pos < 0 ∨ 14 < pos) as Hcases by lia.
  repeat (destruct Hcases as [->|Hcases]); try reflexivity.
  rewrite decide_False by lia. rewrite decide_False by lia.
  repeat (rewrite filter_cons_False by (simpl; lia)). done.
Qed.

(** * The two position dictionaries *)

Section dictionaries.

Lemma positions_on_track_loop_lookup (l : list Z) :
  ∀ (i : nat) (d : gmap Z nat) (x : Z) (k : nat),
    positions_on_track_loop i l d !! x = Some k ↔
    (on_track x ∧ ∃ j, l !! j = Some x ∧ k = (i + j)%nat ∧
                       ∀ j', (j < j')%nat → l !! j' ≠ Some x) ∨
    (d !! x = Some k ∧ ¬ (on_track x ∧ x ∈ l)).
Proof.
  induction l as [|a l IH]; intros i d x k; simpl.
  - split.
    + intros Hd. right. split; [done|]. intros [_ Hin]. by apply elem_of_nil in Hin.
    + intros [(_ & j & Hj & _)|[Hd _]]; done.
  - rewrite IH. clear IH. split.
    + intros [(Hon & j & Hj & -> & Hlast)|[Hd Hno]].
      * left. split; [done|]. exists (S j). split_and!; [done|lia|].
        intros [|j'] Hlt; [lia|]. simpl. apply Hlast. lia.
      * destruct (decide (on_track a)) as [Ha|Ha].
        -- destruct (decide (a = x)) as [->|Hne].
           ++ rewrite lookup_insert_eq in Hd. injection Hd as <-.
              left. split; [done|]. exists 0%nat. split_and!; [done|lia|].
              intros [|j'] Hlt; [lia|]. simpl. intros Hj'.
              apply Hno. split; [done|]. by eapply list_elem_of_lookup_2.
           ++ rewrite lookup_insert_ne in Hd by done.
              right. split; [done|]. intros [Hon [->|Hin]%elem_of_cons]; [done|].
              by apply Hno.
        -- right. split; [done|]. intros [Hon [->|Hin]%elem_of_cons]; [done|].
           by apply Hno.
    + intros [(Hon & [|j] & Hj & -> & Hlast)|[Hd Hno]].
      * simpl in Hj. injection Hj as ->. right.
        rewrite decide_True by done. rewrite lookup_insert_eq.
        split; [f_equal; lia|]. intros [_ [j Hj]%list_elem_of_lookup].
        apply (Hlast (S j)); [lia|done].
      * simpl in Hj. left. split; [done|]. exists j. split_and!; [done|lia|].
        intros j' Hlt. apply (Hlast (S j')). lia.
      * right. split.
        -- case_decide as Ha; [|done]. rewrite lookup_insert_ne; [done|].
           intros ->. apply Hno. split; [done|]. apply list_elem_of_here.
        -- intros [Hon Hin]. apply Hno. split; [done|].
           by apply list_elem_of_further.
Qed.

End dictionaries.

(** X17. [current_player_positions_on_track] maps a position to a piece index
    exactly when the position is on the track and the index is the last piece
    of the player standing there; positions off the track (-1 and 14) are
    never keys. *)
Theorem positions_on_track_last_piece (gm : game) (p : player) (x : Z) (k : nat) :
  current_player_positions_on_track gm p !! x = Some k ↔
  on_track x ∧ pieces (game_positions gm) p !! k = Some x ∧
  ∀ j, (k < j)%nat → pieces (game_positions gm) p !! j ≠ Some x.
Proof.
  unfold current_player_positions_on_track.
  rewrite positions_on_track_loop_lookup. split.
  - intros [(Hon & j & Hj & -> & Hlast)|[Hd _]]; [done|].
    by rewrite lookup_empty in Hd.
  - intros (Hon & Hk & Hlast). left. split; [done|]. by exists k.
Qed.

(** X18. [opp_index_by_pos], the dictionary [legal_moves] reads the captured
    piece from, maps a position to a piece index exactly when the position is
    on the track and the index is the first opponent piece standing there; it
    has a key for every on-track position an opponent piece stands on, so the
    read in [landing_info] never misses. *)
Theorem opp_index_by_pos_first_piece (l : list Z) (x : Z) :
  (∀ i, index_by_pos l !! x = Some i ↔
        on_track x ∧ l !! i = Some x ∧ ∀ j, (j < i)%nat → l !! j ≠ Some x) ∧
  (index_by_pos l !! x = None ↔ x ∉ track_set l).
Proof.
  split; [intros i; apply index_by_pos_Some|]. split.
  - intros Hnone Hin. apply index_by_pos_is_Some in Hin as [i Hi]. congruence.
  - intros Hnot. destruct (index_by_pos l !! x) as [i|] eqn:Hi; [|done].
    exfalso. apply index_by_pos_Some in Hi as (Hon & Hi & _).
    apply Hnot, elem_of_track_set. split; [|done].
    by eapply list_elem_of_lookup_2.
Qed.

(** X19. Only pieces on capture squares are ever sent back: when a returned
    move is applied, every opponent piece that does not stand on a shared
    non-rosette slot (so every piece in a private lane, on the shared rosette
    7, off-board or borne off) stays where it is. *)
Theorem safe_pieces_stay (ps : positions) (p : player) (roll : Z) (m : move)
    (j : nat) (x : Z) :
  m ∈ legal_moves ps p roll →
  pieces ps (opponent p) !! j = Some x → x ∉ CAPTURE_SQUARES →
  pieces (apply_move ps p m).1 (opponent p) !! j = Some x.
Proof.
  intros Hm Hj Hsafe.
  destruct (legal_move_frame _ _ _ _ Hm) as (_ & _ & _ & _ & _ & Hopp).
  rewrite Hopp; [done|]. intros Hk.
  destruct (legal_move_capture _ _ _ _ j Hm Hk) as (Hd & _ & Hcap & _).
  assert (x = newpos m) as -> by congruence. done.
Qed.

Lemma safe_pieces_stay_witness :
  let ps := Positions [3; -1; -1; -1; -1; -1; -1] [7; 5; -1; -1; -1; -1; -1] in
  let m := Move (Some 0%nat) 5 false (Some 1%nat) in
  m ∈ legal_moves ps White 2 ∧
  pieces (apply_move ps White m).1 Black !! 0%nat = Some 7.
Proof.
  intros ps m.
  assert (Hm : m ∈ legal_moves ps White 2).
  { vm_compute. apply list_elem_of_here. }
  split; [exact Hm|].
  refine (safe_pieces_stay ps White 2 m 0 7 Hm eq_refl _).
  rewrite elem_of_CAPTURE_SQUARES. lia.
Defined.

(** X20. What a click selects while a piece is awaited. Either nothing
    changes, or the loop goes on to await a destination with the same game,
    roll and move list, and the selection has a move in the list: a selected
    on-track piece is the only piece of the player to move standing on the
    clicked position, and the clicked square is shared or the player's own;
    the entry is selected only by a click on the rack while the player has an
    off-board piece. *)
Theorem select_click (u u' : ui) (c : click) :
  ui_reachable u → state u = await_select → handle_click u c = Return u' →
  let ps := game_positions (the_game u) in
  let p := current_player (the_game u) in
  u' = u ∨
  (state u' = await_dest ∧ the_game u' = the_game u ∧
   roll_value u' = roll_value u ∧ ui_legal_moves u' = ui_legal_moves u ∧
   (∃ m, m ∈ ui_legal_moves u ∧ piece_idx m = selected_piece u') ∧
   match selected_piece u' with
   | Some pi =>
       ∃ pos owner,
         on_square c = Some (pos, owner) ∧ owner_allows owner p = true ∧
         on_track pos ∧ pieces ps p !! pi = Some pos ∧
         ∀ j, pieces ps p !! j = Some pos → j = pi
   | None => on_rack c = true ∧ -1 ∈ pieces ps p
   end).
Proof.
  intros Hreach Hst Hclick ps p.
  pose proof (ui_reachable_inv u Hreach) as Hinv.
  destruct (inv_moves u Hinv) as (r & _ & _ & Hlegal & _); [by left|].
  pose proof (reachable_ok _ (inv_board u Hinv)) as Hok.
  unfold handle_click in Hclick. rewrite Hst in Hclick. injection Hclick as <-.
  assert (Hentry : piece_can_move u None = true → -1 ∈ pieces ps p).
  { intros (m & Hm & Hpi)%piece_can_move_true. rewrite Hlegal in Hm.
    apply legal_move_dest in Hm
      as [(_ & _ & _ & ? & ? & ? & _)|(_ & _ & _ & [(? & ? & ? & _)|(_ & ? & _)])];
      [congruence..|done]. }
  assert (Hpiece : ∀ pos owner pi,
            on_square c = Some (pos, owner) → owner_allows owner p = true →
            current_player_positions_on_track (the_game u) p !! pos = Some pi →
            ∃ pos' owner',
              on_square c = Some (pos', owner') ∧ owner_allows owner' p = true ∧
              on_track pos' ∧ pieces ps p !! pi = Some pos' ∧
              ∀ j, pieces ps p !! j = Some pos' → j = pi).
  { intros pos owner pi Hsq Hown (Hon & Hpi & _)%positions_on_track_last_piece.
    exists pos, owner. split_and!; [done..|].
    intros j Hj. by apply (ok_no_stack _ Hok p j pi pos). }
  unfold click_select. fold p.
  destruct (on_square c) as [[pos owner]|] eqn:Hsq;
    [destruct (owner_allows owner p) eqn:Hown;
     [destruct (_ !! pos) as [pi|] eqn:Hdict;
      [destruct (piece_can_move u (Some pi)) eqn:Hcan|]|]|];
    destruct (on_rack c) eqn:Hrack;
    try (destruct (piece_can_move _ None) eqn:Hnone);
    try (by left);
    right; (split; [done|]); (split; [done|]); (split; [done|]);
    (split; [done|]); cbn [selected_piece set_turn];
    try (split; [by apply piece_can_move_true|]; split; [done|by apply Hentry]);
    (split; [by apply piece_can_move_true|]); by apply (Hpiece pos owner).
Qed.

Lemma select_click_witness :
  let u := Ui (Game init_positions White (Rng (λ _, 1%nat) 4)) await_select
              (Some 4) [Move None 3 true None] None 0 None None None 0 0 None in
  handle_click u example_click_rack = Return example_await_dest ∧
  (example_await_dest = u ∨ state example_await_dest = await_dest).
Proof.
  intros u.
  assert (Hreach : ui_reachable u).
  { apply (ui_reachable_step (init_ui (Rng (λ _, 1%nat) 0)) _
             (Clicked example_click_roll)); [constructor|].
    vm_compute. reflexivity. }
  split; [reflexivity|].
  destruct (select_click u example_await_dest example_click_rack Hreach
              eq_refl eq_refl) as [Heq|(Hst & _)]; [by left|by right].
Defined.
